(** * Verification of the duplicates_removal utilities

    A shallow embedding of the three Python scripts of the repository

    - [duplicates_remove_v6.py]   (filename normaliser, duplicate grouper,
                                   survivor selection, deletion executor),
    - [clean_empty_dir.py]        (bottom-up empty-directory pruner with a
                                   dry-run mode),
    - [clean_empty_dir_deepseek.py] (the same pruner with a trash backend and
                                   a final check of the root),

    followed by the theorems that settle the claims C1..C10 of the
    specification.

    Conventions of the embedding.

    - A Python [str] is a list of characters; a character is a code point
      below 256 (the type [ascii] read as Latin-1).  On this range
      [str.lower] works character by character and keeps the length, and
      [str.isspace] / the regex class [\s] are the set [is_space] below.
      Of all code points only U+0130 lower-cases to more than one; module
      [Wide] embeds the literal sub-step of [clean_filename] on strings of
      arbitrary code points, and [WideFacts] shows that it is the embedding
      of [CleanFilename] on code points below 256.
    - [pathlib.Path] is the POSIX flavour, with [stem] and [suffix] as in
      CPython up to 3.13.
    - A compiled regular expression is its [search] function, returning the
      span of the leftmost match.
    - [st_ctime] is a number without NaN; only its order is used, so it is
      an integer here.
    - The [while True] loop of [clean_filename] takes fuel; the theorems
      show how much fuel is enough. *)

From Stdlib Require Import Ascii String.
From Stdlib Require Import List ZArith Bool Arith Lia.
From Stdlib Require Import Permutation Sorted.
Import ListNotations.

Set Implicit Arguments.

(* ===================================================================== *)
(** * Part I: the embedding *)
(* ===================================================================== *)

(** ** Python strings *)

Module PyStr.

Definition str := list ascii.

(** A string literal. *)
Definition lit (s : string) : str := list_ascii_of_string s.
Arguments lit s%_string.

Definition str_eq_dec : forall a b : str, {a = b} + {a <> b} :=
  list_eq_dec ascii_dec.

Definition str_eqb (a b : str) : bool :=
  if str_eq_dec a b then true else false.

Definition code (c : ascii) : nat := nat_of_ascii c.

Definition between (lo hi n : nat) : bool := (lo <=? n) && (n <=? hi).

(** [str.isspace] on one character: TAB..CR, FS..US, SPACE, NEL, NBSP. *)
Definition is_space (c : ascii) : bool :=
  between 9 13 (code c) || between 28 32 (code c)
  || (code c =? 133) || (code c =? 160).

(** Decimal digits (the regex class [\d] below 256). *)
Definition is_digit (c : ascii) : bool := between 48 57 (code c).

(** [str.lower] on one character: A-Z and the Latin-1 capitals. *)
Definition lower_char (c : ascii) : ascii :=
  let n := code c in
  if between 65 90 n || (between 192 222 n && negb (n =? 215))
  then ascii_of_nat (n + 32) else c.

Definition lower (s : str) : str := map lower_char s.

(** [s.lstrip()], [s.rstrip()], [s.strip()]. *)
Fixpoint lstrip (s : str) : str :=
  match s with
  | [] => []
  | c :: t => if is_space c then lstrip t else s
  end.

Fixpoint rstrip (s : str) : str :=
  match s with
  | [] => []
  | c :: t =>
      match rstrip t with
      | [] => if is_space c then [] else [c]
      | r => c :: r
      end
  end.

Definition strip (s : str) : str := rstrip (lstrip s).

(** [s.startswith(p)]. *)
Fixpoint startswith (p s : str) : bool :=
  match p, s with
  | [], _ => true
  | _ :: _, [] => false
  | a :: p', b :: s' => if ascii_dec a b then startswith p' s' else false
  end.

(** [s.rfind(sub)]: the highest index at which [sub] starts, or -1. *)
Fixpoint rfind (sub s : str) : Z :=
  match s with
  | [] => if startswith sub [] then 0%Z else (-1)%Z
  | _ :: t =>
      let r := rfind sub t in
      if (0 <=? r)%Z then (r + 1)%Z
      else if startswith sub s then 0%Z else (-1)%Z
  end.

(** Slice bounds as Python normalises them: a negative index counts from
    the end, and the result is clamped to [0, len]. *)
Definition slice_index (s : str) (i : Z) : nat :=
  let len := Z.of_nat (length s) in
  let j := if (i <? 0)%Z then Z.max 0 (len + i) else Z.min i len in
  Z.to_nat j.

(** [s[:i]] and [s[i:]]. *)
Definition slice_to (s : str) (i : Z) : str := firstn (slice_index s i) s.
Definition slice_from (s : str) (i : Z) : str := skipn (slice_index s i) s.

(** Lexicographic [a <= b] on code points (Python's [str] order). *)
Fixpoint str_leb (a b : str) : bool :=
  match a, b with
  | [], _ => true
  | _ :: _, [] => false
  | x :: a', y :: b' =>
      if code x <? code y then true
      else if code y <? code x then false
      else str_leb a' b'
  end.

(** [sep.join(parts)]. *)
Fixpoint join (sep : str) (parts : list str) : str :=
  match parts with
  | [] => []
  | [p] => p
  | p :: rest => p ++ sep ++ join sep rest
  end.

(** [s.split(sep)] for a one-character separator. *)
Fixpoint split (sep : ascii) (s : str) : list str :=
  match s with
  | [] => [[]]
  | c :: t =>
      if ascii_dec c sep then [] :: split sep t
      else match split sep t with
           | [] => [[c]]
           | w :: ws => (c :: w) :: ws
           end
  end.

End PyStr.
Import PyStr.

(** ** pathlib (POSIX flavour) *)

Module PurePath.

(** The components that [Path(s)] keeps: the pieces between slashes that
    are neither empty nor [.]. *)
Definition keep_part (x : str) : bool :=
  negb (str_eqb x []) && negb (str_eqb x (lit ".")).

Definition parse_parts (s : str) : list str :=
  filter keep_part (split "/"%char s).

(** [Path(s).name]: the last component, or the empty string. *)
Definition name_of (s : str) : str := last (parse_parts s) [].

(** The index that [stem] and [suffix] split a name at, when it has an
    extension: [i = name.rfind('.')] with [0 < i < len(name) - 1]. *)
Definition suffix_index (name : str) : option Z :=
  let i := rfind (lit ".") name in
  if ((0 <? i) && (i <? Z.of_nat (length name) - 1))%Z then Some i else None.

(** [Path(name).suffix] and [Path(name).stem]. *)
Definition suffix (name : str) : str :=
  match suffix_index name with
  | Some i => slice_from name i
  | None => []
  end.

Definition stem (name : str) : str :=
  match suffix_index name with
  | Some i => slice_to name i
  | None => name
  end.

(** An absolute, resolved path is the list of its components;
    [[]] is the root [/]. *)
Definition path := list str.

Definition path_eq_dec : forall a b : path, {a = b} + {a <> b} :=
  list_eq_dec str_eq_dec.

Definition path_eqb (a b : path) : bool :=
  if path_eq_dec a b then true else false.

(** [p.name], [p.parent], [str(p)]. *)
Definition name (p : path) : str := last p [].
Definition parent (p : path) : path := removelast p.
Definition to_str (p : path) : str := "/"%char :: join (lit "/") p.

(** [p / child]: an absolute child replaces [p], a relative one is parsed
    and appended. *)
Definition joinpath (p : path) (child : str) : path :=
  if startswith (lit "/") child then parse_parts child
  else p ++ parse_parts child.

(** [d] is a proper ancestor of [p]. *)
Fixpoint is_ancestor (d p : path) : bool :=
  match d, p with
  | [], _ :: _ => true
  | [], [] => false
  | _ :: _, [] => false
  | x :: d', y :: p' => if str_eq_dec x y then is_ancestor d' p' else false
  end.

End PurePath.

(** ** Compiled regular expressions *)

Module Re.

(** [pattern_compiled.search(s)] followed by [match.span()]:
    [None] when there is no match, otherwise [(start, end)]. *)
Definition pattern := str -> option (nat * nat).

(** What every span of [re] satisfies. *)
Definition valid_pattern (p : pattern) : Prop :=
  forall s a b, p s = Some (a, b) -> a <= b <= length s.

(** Number of leading characters of [s] that satisfy [f]. *)
Fixpoint span_while (f : ascii -> bool) (s : str) : nat :=
  match s with
  | c :: t => if f c then S (span_while f t) else 0
  | [] => 0
  end.

(** [re.match] of the default pattern [\s*\(\d+\)] at the start of [s]:
    the length of the match.  Both repetitions are greedy and what follows
    each of them is outside its class, so there is nothing to backtrack. *)
Definition match_default (s : str) : option nat :=
  let ws := span_while is_space s in
  match skipn ws s with
  | "("%char :: r =>
      let ds := span_while is_digit r in
      if ds =? 0 then None
      else match skipn ds r with
           | ")"%char :: _ => Some (ws + 1 + ds + 1)
           | _ => None
           end
  | _ => None
  end.

Definition shift_span (m : option (nat * nat)) : option (nat * nat) :=
  match m with
  | Some (a, b) => Some (S a, S b)
  | None => None
  end.

(** [re.compile(r'\s*\(\d+\)').search]: the leftmost match. *)
Fixpoint default_pattern (s : str) : option (nat * nat) :=
  match match_default s with
  | Some e => Some (0, e)
  | None =>
      match s with
      | [] => None
      | _ :: t => shift_span (default_pattern t)
      end
  end.

(** A pattern that matches nowhere. *)
Definition never_pattern : pattern := fun _ => None.

End Re.

(** ** duplicates_remove_v6.py: [clean_filename] *)

Module CleanFilename.

Section Clean.

Variable pattern_compiled : Re.pattern.
Variable detect_copy : bool.

(** Sub-step 1 of the loop body: remove the first match of the pattern. *)
Definition remove_pattern (cleaned_stem : str) : str :=
  match pattern_compiled cleaned_stem with
  | Some (start, end_) =>
      strip (firstn start cleaned_stem ++ skipn end_ cleaned_stem)
  | None => cleaned_stem
  end.

(** Sub-step 2 of the loop body: remove the later of [.copy], [ - copy]. *)
Definition remove_copy (cleaned_stem : str) : str :=
  let lower_stem := lower cleaned_stem in
  let dot_copy_index := rfind (lit ".copy") lower_stem in
  let space_copy_index := rfind (lit " - copy") lower_stem in
  if (space_copy_index >? dot_copy_index)%Z then
    strip (slice_to cleaned_stem space_copy_index)
  else if negb (dot_copy_index =? -1)%Z then
    strip (slice_to cleaned_stem dot_copy_index)
  else cleaned_stem.

(** One iteration of the [while True] body, up to the test. *)
Definition loop_body (cleaned_stem : str) : str :=
  let s1 := remove_pattern cleaned_stem in
  if detect_copy then remove_copy s1 else s1.

(** The loop: the cleaned stem and the number of iterations run, or [None]
    when the fuel is used up before the [break]. *)
Fixpoint clean_loop (fuel : nat) (cleaned_stem : str) : option (str * nat) :=
  match fuel with
  | 0 => None
  | S fuel' =>
      let original_cleaned_stem := cleaned_stem in
      let cleaned_stem := loop_body cleaned_stem in
      if str_eq_dec cleaned_stem original_cleaned_stem then
        Some (cleaned_stem, 1)
      else
        match clean_loop fuel' cleaned_stem with
        | Some (r, n) => Some (r, S n)
        | None => None
        end
  end.

(** [clean_filename] with explicit fuel for its loop. *)
Definition clean_filename_fuel (fuel : nat) (filename : str) : option str :=
  let name := PurePath.name_of filename in
  let stem := PurePath.stem name in
  let suffix := PurePath.suffix name in
  match clean_loop fuel stem with
  | Some (cleaned_stem, _) => Some (cleaned_stem ++ suffix)
  | None => None
  end.

(** [clean_filename(filename, pattern_compiled, detect_copy)]. *)
Definition clean_filename (filename : str) : option str :=
  clean_filename_fuel (S (length filename)) filename.

(** Whether [clean_filename] prints its empty-stem warning. *)
Definition warns_empty_stem (filename : str) : option bool :=
  let stem := PurePath.stem (PurePath.name_of filename) in
  match clean_loop (S (length filename)) stem with
  | Some (cleaned_stem, _) =>
      Some (str_eqb cleaned_stem [] && negb (str_eqb stem []))
  | None => None
  end.

End Clean.

End CleanFilename.

(** ** The literal sub-step of [clean_filename] on all of Unicode

    Above, a string is a list of code points below 256, where [str.lower]
    maps every character to one character.  Python strings hold any code
    point, and one of them, U+0130 (capital I with dot above), lower-cases
    to two: U+0069 U+0307.  Here the sub-step is embedded once more, on
    lists of arbitrary code points. *)

Module Wide.

(** A string as the list of its code points. *)
Definition wstr := list N.

(** A string of code points below 256 as a Python string. *)
Definition widen (s : str) : wstr := map (fun c => N.of_nat (code c)) s.

Definition in_range (lo hi c : N) : bool := ((lo <=? c) && (c <=? hi))%N.

(** [str.isspace] on one code point. *)
Definition is_space (c : N) : bool :=
  in_range 9 13 c || in_range 28 32 c || (c =? 133)%N || (c =? 160)%N
  || (c =? 5760)%N || in_range 8192 8202 c || (c =? 8232)%N
  || (c =? 8233)%N || (c =? 8239)%N || (c =? 8287)%N || (c =? 12288)%N.

Section Lower.

(** The lower-case mapping of the code points from 256 on other than
    U+0130, each of which lower-cases to one code point: a table of the
    interpreter. *)
Variable lower_table : N -> N.

(** [str.lower] on one code point. *)
Definition lower_char (c : N) : list N :=
  if (c <? 256)%N then
    if in_range 65 90 c || (in_range 192 222 c && negb (c =? 215)%N)
    then [(c + 32)%N] else [c]
  else if (c =? 304)%N then [105%N; 775%N]
  else [lower_table c].

Definition lower (s : wstr) : wstr := flat_map lower_char s.

(** [s.lstrip()], [s.rstrip()], [s.strip()]. *)
Fixpoint lstrip (s : wstr) : wstr :=
  match s with
  | [] => []
  | c :: t => if is_space c then lstrip t else s
  end.

Fixpoint rstrip (s : wstr) : wstr :=
  match s with
  | [] => []
  | c :: t =>
      match rstrip t with
      | [] => if is_space c then [] else [c]
      | r => c :: r
      end
  end.

Definition strip (s : wstr) : wstr := rstrip (lstrip s).

(** [s.startswith(p)]. *)
Fixpoint startswith (p s : wstr) : bool :=
  match p, s with
  | [], _ => true
  | _ :: _, [] => false
  | a :: p', b :: s' => if (a =? b)%N then startswith p' s' else false
  end.

(** [s.rfind(sub)]. *)
Fixpoint rfind (sub s : wstr) : Z :=
  match s with
  | [] => if startswith sub [] then 0%Z else (-1)%Z
  | _ :: t =>
      let r := rfind sub t in
      if (0 <=? r)%Z then (r + 1)%Z
      else if startswith sub s then 0%Z else (-1)%Z
  end.

(** [s[:i]]. *)
Definition slice_index (s : wstr) (i : Z) : nat :=
  let len := Z.of_nat (length s) in
  let j := if (i <? 0)%Z then Z.max 0 (len + i) else Z.min i len in
  Z.to_nat j.

Definition slice_to (s : wstr) (i : Z) : wstr := firstn (slice_index s i) s.

(** Sub-step 2 of the loop body, as in [CleanFilename.remove_copy]: the
    indices are those of [lower_stem], the cut is made in [cleaned_stem]. *)
Definition remove_copy (cleaned_stem : wstr) : wstr :=
  let lower_stem := lower cleaned_stem in
  let dot_copy_index := rfind (widen (lit ".copy")) lower_stem in
  let space_copy_index := rfind (widen (lit " - copy")) lower_stem in
  if (space_copy_index >? dot_copy_index)%Z then
    strip (slice_to cleaned_stem space_copy_index)
  else if negb (dot_copy_index =? -1)%Z then
    strip (slice_to cleaned_stem dot_copy_index)
  else cleaned_stem.

End Lower.

(** The stem [İ.copy]: U+0130 followed by [.copy]. *)
Definition dotted_i_copy : wstr := 304%N :: widen (lit ".copy").

End Wide.

(** ** duplicates_remove_v6.py: the filesystem it sees *)

Module DupFs.
Import PurePath.

(** The fields of [os.stat_result] that the script reads. *)
Record stat_result := { st_ctime : Z; st_size : Z }.

(** The exceptions the script tells apart. *)
Inductive os_error := FileNotFoundError | PermissionError | OtherError.

(** The places where the script calls [stat()] on a file: building
    [files_with_stat], the line that reports the keeper, and, in the loop
    over [duplicates_in_group], the read of the size and the line that
    reports the candidate.  The answers may differ, since the file can
    change between the calls. *)
Inductive stat_call :=
  StatForSort | StatForKeeper | StatForCandidate | StatForReport.

Inductive file_kind := RegularFile | Directory | OtherKind.

(** One directory entry, with what the operating system will answer. *)
Record entry := {
  e_path : path;
  e_kind : file_kind;
  e_stat : stat_call -> stat_result + os_error;
  e_unlink : option os_error
}.

(** The filesystem: its entries in the order in which a scan lists them. *)
Definition filesystem := list entry.

Definition has_path (p : path) (e : entry) : bool := path_eqb (e_path e) p.

Definition is_root (p : path) : bool :=
  match p with [] => true | _ => false end.

(** [p.exists()], [p.is_dir()], [entry.is_file()]. *)
Definition exists_ (fs : filesystem) (p : path) : bool :=
  is_root p || existsb (has_path p) fs.

Definition kind_is_dir (e : entry) : bool :=
  match e_kind e with Directory => true | _ => false end.

Definition is_dir (fs : filesystem) (p : path) : bool :=
  is_root p || existsb (fun e => has_path p e && kind_is_dir e) fs.

Definition is_file (e : entry) : bool :=
  match e_kind e with RegularFile => true | _ => false end.

(** [directory.iterdir()] and [directory.rglob('*')]. *)
Definition iterdir (fs : filesystem) (directory : path) : list entry :=
  filter (fun e => negb (is_root (e_path e))
                   && path_eqb (parent (e_path e)) directory) fs.

Definition rglob (fs : filesystem) (directory : path) : list entry :=
  filter (fun e => is_ancestor directory (e_path e)) fs.

(** [p.stat()]. *)
Definition stat (fs : filesystem) (call : stat_call) (p : path)
  : stat_result + os_error :=
  match find (has_path p) fs with
  | Some e => e_stat e call
  | None => inr FileNotFoundError
  end.

(** [p.unlink()]: the filesystem without [p], or the exception. *)
Definition unlink (fs : filesystem) (p : path) : filesystem + os_error :=
  match find (has_path p) fs with
  | Some e =>
      match e_unlink e with
      | None => inl (filter (fun e' => negb (has_path p e')) fs)
      | Some err => inr err
      end
  | None => inr FileNotFoundError
  end.

End DupFs.

(** ** [list.sort(key=...)]

    Python's sort is stable, and a stable sort is a function of the list
    and the order of the keys alone; insertion from the right is one way to
    compute it. *)

Module PySort.

Section Sort.

Variables (A : Type) (le : A -> A -> bool).

Fixpoint insert (x : A) (l : list A) : list A :=
  match l with
  | [] => [x]
  | y :: t => if le x y then x :: l else y :: insert x t
  end.

Definition sort (l : list A) : list A := fold_right insert [] l.

End Sort.

(** The comparison of a sort with an integer [key], and its order. *)
Definition key_le (A : Type) (key : A -> Z) (a b : A) : bool :=
  (key a <=? key b)%Z.

Definition key_rel (A : Type) (key : A -> Z) (a b : A) : Prop :=
  (key a <= key b)%Z.

End PySort.

(** ** duplicates_remove_v6.py: [find_and_remove_duplicates] *)

Module DuplicatesRemove.
Import PurePath DupFs.

(** The lines the script prints, as far as they tell what it did. *)
Inductive event :=
| ErrorDirectoryNotFound
| ErrorNotADirectory
| ErrorInvalidPattern
| ErrorScanning (err : os_error)
| WarningStat (f : path) (err : os_error)
| NoDuplicateGroups
| Keeping (f : path) (info : bool)
| Deleting (f : path) (size : Z)
| SkippingCandidate (f : path) (err : os_error)
| NoFilesMarked
| DryRunNotice
| AbortedOnEof
| CancelledByUser
| Deleted (f : path)
| SkippingVanished (f : path)
| ErrorDeleting (f : path) (err : os_error)
| Finished (deleted_count : nat) (deleted_size : Z).

(** [file_groups]: a dict, kept in insertion order. *)
Definition groups := list (str * list path).

Fixpoint lookup (key : str) (gs : groups) : option (list path) :=
  match gs with
  | [] => None
  | (k, files) :: rest =>
      if str_eq_dec k key then Some files else lookup key rest
  end.

(** [if group_key not in file_groups: file_groups[group_key] = []]
    followed by [file_groups[group_key].append(file_path)]. *)
Fixpoint add_file (group_key : str) (file_path : path) (gs : groups) : groups :=
  match gs with
  | [] => [(group_key, [file_path])]
  | (k, files) :: rest =>
      if str_eq_dec k group_key then (k, files ++ [file_path]) :: rest
      else (k, files) :: add_file group_key file_path rest
  end.

Section Run.

Variable fs : filesystem.
Variable pattern_compiled : Re.pattern.
Variable detect_copy : bool.

(** [str(file_path.parent / cleaned_name).lower()]. *)
Definition group_key (file_path : path) : option str :=
  match CleanFilename.clean_filename pattern_compiled detect_copy
          (name file_path) with
  | Some cleaned_name =>
      Some (lower (to_str (joinpath (parent file_path) cleaned_name)))
  | None => None
  end.

(** The grouping loop over [all_files]. *)
Fixpoint group_files (all_files : list path) (file_groups : groups)
  : option groups :=
  match all_files with
  | [] => Some file_groups
  | file_path :: rest =>
      match group_key file_path with
      | Some k => group_files rest (add_file k file_path file_groups)
      | None => None
      end
  end.

(** The loop that fills [files_with_stat], with its warnings. *)
Fixpoint stat_files (files : list path)
  : list (path * stat_result) * list event :=
  match files with
  | [] => ([], [])
  | f :: rest =>
      let (ok, warnings) := stat_files rest in
      match stat fs StatForSort f with
      | inl st => ((f, st) :: ok, warnings)
      | inr err => (ok, WarningStat f err :: warnings)
      end
  end.

(** [key=lambda item: item[1].st_ctime], compared. *)
Definition ctime_le (a b : path * stat_result) : bool :=
  (st_ctime (snd a) <=? st_ctime (snd b))%Z.

(** The loop that builds [groups_with_duplicates]. *)
Fixpoint filter_groups (file_groups : groups) : groups * list event :=
  match file_groups with
  | [] => ([], [])
  | (k, files) :: rest =>
      let (kept, later) := filter_groups rest in
      if 1 <? length files then
        let (files_with_stat, warnings) := stat_files files in
        if 1 <? length files_with_stat then
          ((k, map fst (PySort.sort ctime_le files_with_stat)) :: kept,
           warnings ++ later)
        else (kept, warnings ++ later)
      else (kept, later)
  end.

(** The loop over [duplicates_in_group].  The candidate is appended to
    [files_to_remove] as soon as its size is read; the [stat()] of the line
    that reports it comes after, inside the same [try]. *)
Fixpoint mark_duplicates (duplicates_in_group : list path)
  : list (path * Z) * list event :=
  match duplicates_in_group with
  | [] => ([], [])
  | file_to_delete :: rest =>
      let (marked, evs) := mark_duplicates rest in
      match stat fs StatForCandidate file_to_delete with
      | inl st =>
          let file_size := st_size st in
          ((file_to_delete, file_size) :: marked,
           match stat fs StatForReport file_to_delete with
           | inl _ => Deleting file_to_delete file_size
           | inr err => SkippingCandidate file_to_delete err
           end :: evs)
      | inr err => (marked, SkippingCandidate file_to_delete err :: evs)
      end
  end.

Definition stat_succeeds (call : stat_call) (f : path) : bool :=
  match stat fs call f with inl _ => true | inr _ => false end.

(** The loop over the groups that fills [files_to_remove]. *)
Fixpoint mark_groups (file_groups : groups) : list (path * Z) * list event :=
  match file_groups with
  | [] => ([], [])
  | (_, files) :: rest =>
      let (later, evs) := mark_groups rest in
      match files with
      | [] => (later, evs)
      | keep_file :: duplicates_in_group =>
          let (marked, devs) := mark_duplicates duplicates_in_group in
          (marked ++ later,
           Keeping keep_file (stat_succeeds StatForKeeper keep_file)
             :: devs ++ evs)
      end
  end.

(** [key=lambda item: str(item[0]).lower()], compared. *)
Definition path_le (a b : path * Z) : bool :=
  str_leb (lower (to_str (fst a))) (lower (to_str (fst b))).

(** [sum(size for _, size in files_to_remove)]. *)
Definition total_size (files_to_remove : list (path * Z)) : Z :=
  fold_right (fun item acc => (snd item + acc)%Z) 0%Z files_to_remove.

(** The state of the deletion loop. *)
Record deletion := {
  d_fs : filesystem;
  d_count : nat;
  d_size : Z;
  d_log : list event
}.

(** One turn of the deletion loop. *)
Definition delete_one (st : deletion) (item : path * Z) : deletion :=
  let (file_path, size) := item in
  if exists_ (d_fs st) file_path then
    match unlink (d_fs st) file_path with
    | inl fs' =>
        {| d_fs := fs'; d_count := S (d_count st);
           d_size := (d_size st + size)%Z;
           d_log := d_log st ++ [Deleted file_path] |}
    | inr err =>
        {| d_fs := d_fs st; d_count := d_count st; d_size := d_size st;
           d_log := d_log st ++ [ErrorDeleting file_path err] |}
    end
  else
    {| d_fs := d_fs st; d_count := d_count st; d_size := d_size st;
       d_log := d_log st ++ [SkippingVanished file_path] |}.

Definition delete_files (files_to_remove : list (path * Z)) (st : deletion)
  : deletion :=
  fold_left delete_one files_to_remove st.

End Run.

(** What a run leaves behind. *)
Record result := {
  r_fs : filesystem;
  r_groups : groups;
  r_files_to_remove : list (path * Z);
  r_deleted_count : nat;
  r_deleted_size : Z;
  r_log : list event
}.

(** A [return] before the deletion loop. *)
Definition returns (fs : filesystem) (gs : groups)
  (files_to_remove : list (path * Z)) (log : list event) : result :=
  {| r_fs := fs; r_groups := gs; r_files_to_remove := files_to_remove;
     r_deleted_count := 0; r_deleted_size := 0%Z; r_log := log |}.

(** The listing of [all_files]; [scan_error] is the exception raised while
    listing, if any.  [None] is the [return] of the non-recursive branch. *)
Definition gather (fs : filesystem) (scan_error : option os_error)
  (directory : path) (recursive : bool) : option (list path) * list event :=
  if recursive then
    match scan_error with
    | Some err => (Some [], [ErrorScanning err])
    | None => (Some (map e_path (filter is_file (rglob fs directory))), [])
    end
  else
    match scan_error with
    | Some err => (None, [ErrorScanning err])
    | None => (Some (map e_path (filter is_file (iterdir fs directory))), [])
    end.

Definition is_nil (A : Type) (l : list A) : bool :=
  match l with [] => true | _ => false end.

Definition dry_run_notice (dry_run : bool) : list event :=
  if dry_run then [DryRunNotice] else [].

(** [input(...).strip().lower()]; [None] is [EOFError]. *)
Definition read_confirmation (stdin : option str) : option str :=
  match stdin with
  | Some line => Some (lower (strip line))
  | None => None
  end.

(** [find_and_remove_duplicates].  [directory] is the resolved path,
    [pattern] the outcome of [re.compile(pattern)] ([None] for [re.error]),
    [stdin] the line that [input] reads.  [None] is a run that does not
    return. *)
Definition find_and_remove_duplicates
  (fs : filesystem) (scan_error : option os_error) (stdin : option str)
  (directory : path) (dry_run : bool) (pattern : option Re.pattern)
  (auto_confirm detect_copy recursive : bool) : option result :=
  if negb (exists_ fs directory) then
    Some (returns fs [] [] [ErrorDirectoryNotFound])
  else if negb (is_dir fs directory) then
    Some (returns fs [] [] [ErrorNotADirectory])
  else
  match pattern with
  | None => Some (returns fs [] [] [ErrorInvalidPattern])
  | Some pattern_compiled =>
  match gather fs scan_error directory recursive with
  | (None, log0) => Some (returns fs [] [] log0)
  | (Some all_files, log0) =>
  match group_files pattern_compiled detect_copy all_files [] with
  | None => None
  | Some file_groups =>
  let (file_groups, log1) := filter_groups fs file_groups in
  if is_nil file_groups then
    Some (returns fs file_groups []
            (log0 ++ log1 ++ NoDuplicateGroups :: dry_run_notice dry_run))
  else
  let (files_to_remove, log2) := mark_groups fs file_groups in
  if is_nil files_to_remove then
    Some (returns fs file_groups []
            (log0 ++ log1 ++ log2 ++ NoFilesMarked :: dry_run_notice dry_run))
  else
  let files_to_remove := PySort.sort path_le files_to_remove in
  let log := log0 ++ log1 ++ log2 in
  if dry_run then
    Some (returns fs file_groups files_to_remove (log ++ [DryRunNotice]))
  else
  let proceed :=
    if auto_confirm then inl tt
    else match read_confirmation stdin with
         | None => inr AbortedOnEof
         | Some confirmation =>
             if str_eq_dec confirmation (lit "yes") then inl tt
             else inr CancelledByUser
         end in
  match proceed with
  | inr ev => Some (returns fs file_groups files_to_remove (log ++ [ev]))
  | inl _ =>
      let st := delete_files files_to_remove
                  {| d_fs := fs; d_count := 0; d_size := 0%Z; d_log := log |} in
      Some {| r_fs := d_fs st; r_groups := file_groups;
              r_files_to_remove := files_to_remove;
              r_deleted_count := d_count st; r_deleted_size := d_size st;
              r_log := d_log st ++ [Finished (d_count st) (d_size st)] |}
  end
  end
  end
  end.

End DuplicatesRemove.

(** ** The directory tree that the pruners walk *)

Module DirTree.
Import PurePath.

(** What the operating system allows on one directory: listing it
    ([os.scandir], [iterdir]), [rmdir] once it is empty, and moving it to
    the trash. *)
Record access := { can_list : bool; can_rmdir : bool; can_trash : bool }.

(** A directory: its name, its access, the names of the entries that
    [os.walk] does not walk into (files, links), and its subdirectories in
    listing order. *)
Unset Elimination Schemes.
Inductive dir :=
| Dir (dname : str) (acc : access) (others : list str) (subdirs : list dir).
Set Elimination Schemes.

Definition dir_name (d : dir) : str :=
  match d with Dir n _ _ _ => n end.

Definition dir_access (d : dir) : access :=
  match d with Dir _ a _ _ => a end.

Definition dir_others (d : dir) : list str :=
  match d with Dir _ _ o _ => o end.

Definition dir_subdirs (d : dir) : list dir :=
  match d with Dir _ _ _ s => s end.

(** [list(current_dir.iterdir())]: the names of all entries, or [None] for
    the [OSError] of a directory that cannot be listed. *)
Definition iterdir (d : dir) : option (list str) :=
  if can_list (dir_access d)
  then Some (dir_others d ++ map dir_name (dir_subdirs d))
  else None.

(** What the loop body did, in order.  [Checked] marks the evaluation of
    the body for a directory; the others are the messages of the scripts. *)
Inductive event :=
| Checked (p : path)
| WouldDelete (p : path)
| Removed (p : path)
| Trashed (p : path)
| ErrorRemoving (p : path)
| ErrorListing (p : path).

(** The counters of the loop and the messages so far. *)
Record tally := {
  deleted_count : nat;
  error_count : nat;
  log : list event
}.

Definition start : tally :=
  {| deleted_count := 0; error_count := 0; log := [] |}.

Definition says (st : tally) (evs : list event) : tally :=
  {| deleted_count := deleted_count st; error_count := error_count st;
     log := log st ++ evs |}.

Definition count_deleted (st : tally) (evs : list event) : tally :=
  {| deleted_count := S (deleted_count st); error_count := error_count st;
     log := log st ++ evs |}.

Definition count_error (st : tally) (evs : list event) : tally :=
  {| deleted_count := deleted_count st; error_count := S (error_count st);
     log := log st ++ evs |}.

Definition keep_dir (c : option dir) (rest : list dir) : list dir :=
  match c with Some x => x :: rest | None => rest end.

Section Walk.

(** The body of [for dirpath_str, dirnames, filenames in os.walk(...)]:
    from the path and the present state of the directory to what is left
    of it ([None] once it is gone). *)
Variable body : path -> dir -> tally -> option dir * tally.

(** [os.walk(top, topdown=False)] with the loop body run at each [yield]:
    a directory is scanned, its subdirectories are walked in listing
    order, and then it is yielded.  A directory whose scan fails is
    skipped without a word ([onerror] is [None]). *)
Fixpoint os_walk (where_ : path) (d : dir) (st : tally)
  : option dir * tally :=
  match d with
  | Dir n a others subdirs =>
      if can_list a then
        let current_dir := where_ ++ [n] in
        let (remaining, st1) :=
          (fix walk_dirs (ds : list dir) (st : tally) : list dir * tally :=
             match ds with
             | [] => ([], st)
             | c :: rest =>
                 let (c', st1) := os_walk current_dir c st in
                 let (rest', st2) := walk_dirs rest st1 in
                 (keep_dir c' rest', st2)
             end) subdirs st in
        body current_dir (Dir n a others remaining) st1
      else (Some d, st)
  end.

(** The inner loop of [os_walk], by name. *)
Fixpoint walk_dirs (current_dir : path) (ds : list dir) (st : tally)
  : list dir * tally :=
  match ds with
  | [] => ([], st)
  | c :: rest =>
      let (c', st1) := os_walk current_dir c st in
      let (rest', st2) := walk_dirs current_dir rest st1 in
      (keep_dir c' rest', st2)
  end.

End Walk.

End DirTree.

(** ** click.confirm *)

Module Click.

(** The answer that ends the prompt of [click.confirm], which asks again
    after any other input. *)
Inductive reply := ReplyYes | ReplyNo | ReplyEmpty | ReplyEof.

(** Modelled from the spec: [click.confirm], a function of the click
    library, which is not among the sources.  The specification takes the
    confirmation prompt as a collaborator, "yes/no with a default", where
    "declining aborts the whole operation"; the call in [cli] passes
    [default=False] and [abort=True].  An empty answer takes the default,
    the end of input raises [click.Abort], and so does a result of [False]
    under [abort].  [None] is [click.Abort], which ends the program. *)
Definition confirm (default abort : bool) (r : reply) : option bool :=
  match r with
  | ReplyEof => None
  | _ =>
      let rv := match r with
                | ReplyYes => true
                | ReplyNo => false
                | _ => default
                end in
      if abort && negb rv then None else Some rv
  end.

End Click.

(** ** clean_empty_dir.py *)

Module CleanEmptyDir.
Import PurePath DirTree.

(** The body of the loop of [delete_empty_dirs_recursive]. *)
Definition body (dry_run : bool) (current_dir : path) (d : dir) (st : tally)
  : option dir * tally :=
  match iterdir d with
  | Some [] =>
      if dry_run then
        (Some d, count_deleted st [Checked current_dir; WouldDelete current_dir])
      else if can_rmdir (dir_access d) then
        (None, count_deleted st [Checked current_dir; Removed current_dir])
      else
        (Some d, count_error st [Checked current_dir; ErrorRemoving current_dir])
  | Some (_ :: _) => (Some d, says st [Checked current_dir])
  | None =>
      (Some d, count_error st [Checked current_dir; ErrorListing current_dir])
  end.

(** [delete_empty_dirs_recursive(root_dir_path, dry_run)], where the root
    is the directory [root] inside [where_]: what is left of the tree, and
    the counters it returns. *)
Definition delete_empty_dirs_recursive (where_ : path) (root : dir)
  (dry_run : bool) : option dir * tally :=
  os_walk (body dry_run) where_ root start.

(** How [cli] ends. *)
Inductive outcome :=
| Aborted
| Done (after : option dir) (st : tally).

(** [cli(root_dir, dry_run, yes)]; [answer] is what the user replies if
    asked. *)
Definition cli (where_ : path) (root : dir) (dry_run yes : bool)
  (answer : Click.reply) : outcome :=
  let run := let (after, st) := delete_empty_dirs_recursive where_ root dry_run
             in Done after st in
  if dry_run then run
  else if negb yes then
    match Click.confirm false true answer with
    | None => Aborted
    | Some _ => run
    end
  else run.

(** The tree that a run of [cli] leaves. *)
Definition tree_after (root : dir) (o : outcome) : option dir :=
  match o with
  | Aborted => Some root
  | Done after _ => after
  end.

End CleanEmptyDir.

(** ** clean_empty_dir_deepseek.py *)

Module CleanEmptyDirDeepseek.
Import PurePath DirTree.

(** [current_dir.rmdir()] or [send2trash(str(current_dir))], by
    [force_delete]: the event of the success, or [None] for [OSError]. *)
Definition remove (force_delete : bool) (current_dir : path) (d : dir)
  : option event :=
  if force_delete then
    if can_rmdir (dir_access d) then Some (Removed current_dir) else None
  else
    if can_trash (dir_access d) then Some (Trashed current_dir) else None.

(** The body of the loop of [delete_empty_recursive]. *)
Definition body (force_delete : bool) (current_dir : path) (d : dir)
  (st : tally) : option dir * tally :=
  match iterdir d with
  | Some [] =>
      match remove force_delete current_dir d with
      | Some ev => (None, count_deleted st [Checked current_dir; ev])
      | None =>
          (Some d, count_error st [Checked current_dir; ErrorRemoving current_dir])
      end
  | Some (_ :: _) => (Some d, says st [Checked current_dir])
  | None =>
      (Some d, count_error st [Checked current_dir; ErrorListing current_dir])
  end.

(** The check of the root after the loop. *)
Definition final_check (force_delete : bool) (root_dir_path : path)
  (after : option dir) (st : tally) : option dir * tally :=
  match after with
  | None => (None, st)
  | Some d =>
      match iterdir d with
      | Some [] =>
          match remove force_delete root_dir_path d with
          | Some ev => (None, count_deleted st [Checked root_dir_path; ev])
          | None =>
              (Some d, count_error st
                         [Checked root_dir_path; ErrorRemoving root_dir_path])
          end
      | Some (_ :: _) => (Some d, says st [Checked root_dir_path])
      | None =>
          (Some d, count_error st
                     [Checked root_dir_path; ErrorListing root_dir_path])
      end
  end.

(** [delete_empty_recursive(root_dir_path, force_delete, verbose_level)];
    the verbosity changes the logger only and is left out. *)
Definition delete_empty_recursive (where_ : path) (root : dir)
  (force_delete : bool) : option dir * tally :=
  let (after, st) := os_walk (body force_delete) where_ root start in
  final_check force_delete (where_ ++ [dir_name root]) after st.

End CleanEmptyDirDeepseek.

(** ** Vocabulary of the specification *)

Module Spec.
Import PurePath.

(** [sub] occurs in [s] at index [i]. *)
Definition occurs_at (sub s : str) (i : nat) : Prop :=
  exists before after, s = before ++ sub ++ after /\ length before = i.

(** [i] is the index of the last occurrence of [sub] in [s]. *)
Definition last_occurrence (sub s : str) (i : nat) : Prop :=
  occurs_at sub s i /\ forall j, occurs_at sub s j -> j <= i.

(** [sub] does not occur in [s]. *)
Definition absent (sub s : str) : Prop := forall i, ~ occurs_at sub s i.

(** The same, ignoring case: some [w] that lower-cases to what [sub]
    lower-cases to occurs in [s] at index [i]. *)
Definition occurs_nocase (sub s : str) (i : nat) : Prop :=
  exists before w after,
    s = before ++ w ++ after /\ length before = i /\ lower w = lower sub.

Definition last_nocase (sub s : str) (i : nat) : Prop :=
  occurs_nocase sub s i /\ forall j, occurs_nocase sub s j -> j <= i.

Definition absent_nocase (sub s : str) : Prop :=
  forall i, ~ occurs_nocase sub s i.

(** A file name: one path component, as [file_path.name] is. *)
Definition is_file_name (filename : str) : Prop :=
  ~ In "/"%char filename /\ filename <> lit ".".

End Spec.

(** ** Vocabulary for the duplicate grouper *)

Module DupSpec.
Import PurePath DupFs DuplicatesRemove.

(** What the grouper reads for a file when it builds [files_with_stat]
    (zeros when the read fails). *)
Definition stat_of (fs : filesystem) (f : path) : stat_result :=
  match stat fs StatForSort f with
  | inl st => st
  | inr _ => {| st_ctime := 0; st_size := 0 |}
  end.

Definition ctime_of (fs : filesystem) (f : path) : Z :=
  st_ctime (stat_of fs f).

(** The metadata of [f] can be read when the groups are sorted. *)
Definition readable (fs : filesystem) (f : path) : bool :=
  stat_succeeds fs StatForSort f.

(** [f] has the grouping key [k]. *)
Definition has_key (p : Re.pattern) (dc : bool) (k : str) (f : path) : bool :=
  match group_key p dc f with
  | Some k' => str_eqb k' k
  | None => false
  end.

(** The group of key [k]: the discovered files with that key, in discovery
    order. *)
Definition members (p : Re.pattern) (dc : bool) (k : str)
  (all_files : list path) : list path :=
  filter (has_key p dc k) all_files.

(** The files of key [k] in a dict of groups ([[]] when there is none). *)
Definition members_of (k : str) (gs : groups) : list path :=
  match lookup k gs with Some l => l | None => [] end.

(** What the specification keeps of a group: nothing unless it has at least
    two files of which at least two are readable; otherwise the readable
    ones, sorted by creation time. *)
Definition kept_group (fs : filesystem) (files : list path)
  : option (list path) :=
  if (1 <? length files) && (1 <? length (filter (readable fs) files))
  then Some (PySort.sort (PySort.key_le (ctime_of fs))
               (filter (readable fs) files))
  else None.

(** The outcome of [re.compile]: an error, or a pattern whose spans lie
    inside the string searched. *)
Definition compiled_ok (pattern : option Re.pattern) : Prop :=
  match pattern with
  | Some p => Re.valid_pattern p
  | None => True
  end.

(** The paths marked for deletion. *)
Definition marked (r : result) : list path := map fst (r_files_to_remove r).

(** The events that tell of a call of [unlink]. *)
Definition unlink_event (ev : event) : bool :=
  match ev with
  | Deleted _ | ErrorDeleting _ _ => true
  | _ => false
  end.

End DupSpec.

(** ** Vocabulary for the pruners *)

Module PruneSpec.
Import PurePath DirTree.

(** The directories in the order in which a bottom-up walk reaches them:
    those of each subdirectory, in listing order, and then the directory
    itself.  Nothing below a directory that cannot be listed is reached. *)
Fixpoint postorder (where_ : path) (d : dir) : list path :=
  match d with
  | Dir n a _ subdirs =>
      if can_list a then
        flat_map (postorder (where_ ++ [n])) subdirs ++ [where_ ++ [n]]
      else []
  end.

(** A directory collapses when it can be listed and removed, holds nothing
    but subdirectories, and all of these collapse.  [rm] tells whether the
    removal in use succeeds on a directory. *)
Fixpoint collapses (rm : access -> bool) (d : dir) : bool :=
  match d with
  | Dir _ a [] subdirs => can_list a && forallb (collapses rm) subdirs && rm a
  | Dir _ _ (_ :: _) _ => false
  end.

(** The collapsing directories, in the order of the walk. *)
Fixpoint removed_dirs (rm : access -> bool) (where_ : path) (d : dir)
  : list path :=
  match d with
  | Dir n a _ subdirs =>
      if can_list a then
        flat_map (removed_dirs rm (where_ ++ [n])) subdirs
        ++ (if collapses rm d then [where_ ++ [n]] else [])
      else []
  end.

(** What is left of a tree once its collapsing directories are gone. *)
Fixpoint residue (rm : access -> bool) (d : dir) : option dir :=
  match d with
  | Dir n a others subdirs =>
      if can_list a then
        if collapses rm d then None
        else Some (Dir n a others
                     (fold_right (fun c rest => keep_dir (residue rm c) rest)
                        [] subdirs))
      else Some d
  end.

Definition residues (rm : access -> bool) (ds : list dir) : list dir :=
  fold_right (fun c rest => keep_dir (residue rm c) rest) [] ds.

(** The directories for which the loop body ran, and those that were
    removed or trashed, in order. *)
Definition checked_of (evs : list event) : list path :=
  flat_map (fun ev => match ev with Checked p => [p] | _ => [] end) evs.

Definition removed_of (evs : list event) : list path :=
  flat_map (fun ev => match ev with
                      | Removed p | Trashed p => [p]
                      | _ => []
                      end) evs.

(** The loop body of both scripts in a live run, given the removal in use
    and the message of its success. *)
Definition live_body (rm : access -> bool) (ok : path -> event)
  (current_dir : path) (d : dir) (st : tally) : option dir * tally :=
  match iterdir d with
  | Some [] =>
      if rm (dir_access d) then
        (None, count_deleted st [Checked current_dir; ok current_dir])
      else
        (Some d, count_error st [Checked current_dir; ErrorRemoving current_dir])
  | Some (_ :: _) => (Some d, says st [Checked current_dir])
  | None =>
      (Some d, count_error st [Checked current_dir; ErrorListing current_dir])
  end.

(** What a live walk is to do to a tree, to the log and to the counter:
    leave the residue, check the directories in post-order, and remove
    exactly the collapsing ones. *)
Definition walked (rm : access -> bool) (ok : path -> event) (d : dir)
  : Prop :=
  forall w st,
    fst (os_walk (live_body rm ok) w d st) = residue rm d
    /\ checked_of (log (snd (os_walk (live_body rm ok) w d st)))
       = checked_of (log st) ++ postorder w d
    /\ removed_of (log (snd (os_walk (live_body rm ok) w d st)))
       = removed_of (log st) ++ removed_dirs rm w d
    /\ deleted_count (snd (os_walk (live_body rm ok) w d st))
       = deleted_count st + length (removed_dirs rm w d).

(** The removal of [clean_empty_dir_deepseek.py] by [force_delete]. *)
Definition removal (force_delete : bool) : access -> bool :=
  if force_delete then can_rmdir else can_trash.

Definition removal_event (force_delete : bool) : path -> event :=
  if force_delete then Removed else Trashed.

End PruneSpec.

(** ** Sample inputs *)

Module Samples.
Import PurePath DupFs DirTree.

(** The directory [/d]. *)
Definition directory : path := [lit "d"].

Definition folder : entry :=
  {| e_path := directory; e_kind := Directory;
     e_stat := fun _ => inl {| st_ctime := 0; st_size := 0 |};
     e_unlink := Some PermissionError |}.

(** A regular file of [/d] with its creation time and size. *)
Definition file (nm : string) (ctime size : Z) : entry :=
  {| e_path := [lit "d"; lit nm]; e_kind := RegularFile;
     e_stat := fun _ => inl {| st_ctime := ctime; st_size := size |};
     e_unlink := None |}.

(** A regular file of [/d] whose metadata cannot be read. *)
Definition unreadable (nm : string) : entry :=
  {| e_path := [lit "d"; lit nm]; e_kind := RegularFile;
     e_stat := fun _ => inr PermissionError;
     e_unlink := None |}.

(** Three copies of [a.txt], the two numbered ones of the same age and
    older than the plain one, and a file of its own. *)
Definition copies : filesystem :=
  [ folder; file "a.txt" 30 7; file "a (1).txt" 10 5;
    file "a (2).txt" 10 9; file "b.txt" 1 1 ].

Definition copies_files : list path :=
  [ [lit "d"; lit "a.txt"]; [lit "d"; lit "a (1).txt"];
    [lit "d"; lit "a (2).txt"]; [lit "d"; lit "b.txt"] ].

(** Two copies, one of them unreadable. *)
Definition locked : filesystem :=
  [ folder; file "a.txt" 30 7; unreadable "a (1).txt" ].

Definition locked_files : list path :=
  [ [lit "d"; lit "a.txt"]; [lit "d"; lit "a (1).txt"] ].

(** The grouping key of the copies of [a.txt] in [/d]. *)
Definition key_a : str := lit "/d/a.txt".

Definition all_access : access :=
  {| can_list := true; can_rmdir := true; can_trash := true |}.

(** The tree [a/b/c] with [c] empty. *)
Definition chain : dir :=
  Dir (lit "a") all_access []
    [Dir (lit "b") all_access [] [Dir (lit "c") all_access [] []]].

(** A tree with a file in one branch and an empty branch. *)
Definition mixed : dir :=
  Dir (lit "a") all_access []
    [Dir (lit "b") all_access [lit "notes.txt"] [];
     Dir (lit "c") all_access [] [Dir (lit "e") all_access [] []]].

End Samples.

(* ===================================================================== *)
(** * Part II: the theorems *)
(* ===================================================================== *)

(** ** Facts about Python strings *)

Module PyStrFacts.

Lemma lstrip_length (s : str) : length (lstrip s) <= length s.
Proof.
  induction s as [|c t IH]; simpl; [lia|].
  destruct (is_space c); simpl; lia.
Qed.

Lemma rstrip_length (s : str) : length (rstrip s) <= length s.
Proof.
  induction s as [|c t IH]; simpl; [lia|].
  destruct (rstrip t) as [|x r]; [destruct (is_space c)|]; simpl in *; lia.
Qed.

Lemma lstrip_same (s : str) : length (lstrip s) = length s -> lstrip s = s.
Proof.
  destruct s as [|c t]; simpl; [reflexivity|].
  destruct (is_space c); [|reflexivity].
  intros H. pose proof (lstrip_length t). lia.
Qed.

Lemma rstrip_same (s : str) : length (rstrip s) = length s -> rstrip s = s.
Proof.
  induction s as [|c t IH]; simpl; [reflexivity|].
  pose proof (rstrip_length t) as L.
  destruct (rstrip t) as [|x r] eqn:E.
  - destruct (is_space c); simpl in *; intros H; [lia|].
    destruct t; [reflexivity|simpl in H; lia].
  - simpl. intros H. f_equal. apply IH. simpl. lia.
Qed.

Lemma strip_length (s : str) : length (strip s) <= length s.
Proof.
  unfold strip. pose proof (rstrip_length (lstrip s)).
  pose proof (lstrip_length s). lia.
Qed.

(** [strip] returns its argument or a shorter string. *)
Lemma strip_same_or_shorter (s : str) :
  strip s = s \/ length (strip s) < length s.
Proof.
  unfold strip.
  pose proof (rstrip_length (lstrip s)) as R.
  pose proof (lstrip_length s) as L.
  destruct (Nat.eq_dec (length (rstrip (lstrip s))) (length s)) as [E|E].
  - left. rewrite (rstrip_same (lstrip s)) by lia.
    apply lstrip_same. lia.
  - right. lia.
Qed.

Lemma lower_length (s : str) : length (lower s) = length s.
Proof. apply length_map. Qed.

Lemma startswith_app (sub s : str) :
  startswith sub s = true <-> exists after, s = sub ++ after.
Proof.
  revert s. induction sub as [|a p IH]; intros s; simpl.
  - split; [intros _; exists s; reflexivity | reflexivity].
  - destruct s as [|b t].
    + split; [discriminate | intros [x H]; discriminate].
    + destruct (ascii_dec a b) as [->|N].
      * rewrite IH. split; intros [x H]; exists x.
        -- now rewrite H.
        -- now injection H.
      * split; [discriminate|]. intros [x H]. injection H as H1 H2.
        now destruct N.
Qed.

Lemma startswith_length (sub s : str) :
  startswith sub s = true -> length sub <= length s.
Proof.
  intros H. apply startswith_app in H as [x ->]. rewrite length_app. lia.
Qed.

Lemma rfind_lower_bound (sub s : str) : (-1 <= rfind sub s)%Z.
Proof.
  induction s as [|c t IH]; simpl.
  - destruct (startswith sub []); lia.
  - destruct (0 <=? rfind sub t)%Z eqn:E; [apply Z.leb_le in E; lia|].
    destruct (startswith sub (c :: t)); lia.
Qed.

(** A non-negative result of [rfind] is an occurrence that fits. *)
Lemma rfind_found (sub s : str) :
  (0 <= rfind sub s)%Z ->
  Spec.occurs_at sub s (Z.to_nat (rfind sub s)).
Proof.
  induction s as [|c t IH]; simpl.
  - destruct (startswith sub []) eqn:E; [|lia]. intros _.
    apply startswith_app in E as [x E]. exists [], x. now split.
  - destruct (0 <=? rfind sub t)%Z eqn:E.
    + apply Z.leb_le in E. intros _.
      destruct (IH E) as (b & a & Hs & Hl).
      exists (c :: b), a. split; [now rewrite Hs|]. simpl. lia.
    + destruct (startswith sub (c :: t)) eqn:F; [|lia]. intros _.
      apply startswith_app in F as [x F]. exists [], x. now split.
Qed.

(** No occurrence lies after the result of [rfind]. *)
Lemma rfind_last (sub s : str) (j : nat) :
  Spec.occurs_at sub s j -> (Z.of_nat j <= rfind sub s)%Z.
Proof.
  revert j. induction s as [|c t IH]; intros j (b & a & Hs & Hl); simpl.
  - destruct b; [|discriminate]. destruct sub; [|discriminate].
    simpl in *. lia.
  - destruct b as [|x b].
    + simpl in Hs, Hl. subst j.
      destruct (0 <=? rfind sub t)%Z eqn:E; [apply Z.leb_le in E; lia|].
      assert (F : startswith sub (c :: t) = true)
        by (apply startswith_app; now exists a).
      rewrite F. lia.
    + simpl in Hs. injection Hs as -> Hs. simpl in Hl. subst j.
      assert (O : Spec.occurs_at sub t (length b)) by (now exists b, a).
      specialize (IH _ O).
      destruct (0 <=? rfind sub t)%Z eqn:E; [lia|].
      apply Z.leb_gt in E. lia.
Qed.

Lemma rfind_last_occurrence (sub s : str) :
  (0 <= rfind sub s)%Z ->
  Spec.last_occurrence sub s (Z.to_nat (rfind sub s)).
Proof.
  intros H. split; [now apply rfind_found|].
  intros j O. apply rfind_last in O. lia.
Qed.

Lemma rfind_absent (sub s : str) :
  rfind sub s = (-1)%Z <-> Spec.absent sub s.
Proof.
  split.
  - intros H i O. apply rfind_last in O. lia.
  - intros A. pose proof (rfind_lower_bound sub s).
    destruct (Z.eq_dec (rfind sub s) (-1)); [assumption|].
    exfalso. apply (A (Z.to_nat (rfind sub s))), rfind_found. lia.
Qed.

Lemma last_occurrence_rfind (sub s : str) (i : nat) :
  Spec.last_occurrence sub s i -> rfind sub s = Z.of_nat i.
Proof.
  intros [O L]. pose proof (rfind_last O).
  assert (P : (0 <= rfind sub s)%Z) by lia.
  apply rfind_found, L in P. lia.
Qed.

Lemma occurs_at_fits (sub s : str) (i : nat) :
  Spec.occurs_at sub s i -> i + length sub <= length s.
Proof.
  intros (b & a & -> & <-). rewrite !length_app. lia.
Qed.

Lemma slice_to_nat (s : str) (i : nat) :
  slice_to s (Z.of_nat i) = firstn i s.
Proof.
  unfold slice_to, slice_index.
  destruct (Z.of_nat i <? 0)%Z eqn:E; [apply Z.ltb_lt in E; lia|].
  destruct (Nat.le_gt_cases i (length s)).
  - now rewrite Z.min_l, Nat2Z.id by lia.
  - rewrite Z.min_r, Nat2Z.id by lia.
    now rewrite firstn_all, firstn_all2 by lia.
Qed.

Lemma slice_from_nat (s : str) (i : nat) :
  slice_from s (Z.of_nat i) = skipn i s.
Proof.
  unfold slice_from, slice_index.
  destruct (Z.of_nat i <? 0)%Z eqn:E; [apply Z.ltb_lt in E; lia|].
  destruct (Nat.le_gt_cases i (length s)).
  - now rewrite Z.min_l, Nat2Z.id by lia.
  - rewrite Z.min_r, Nat2Z.id by lia.
    now rewrite skipn_all, skipn_all2 by lia.
Qed.

Lemma slice_to_from (s : str) (i : Z) : slice_to s i ++ slice_from s i = s.
Proof. apply firstn_skipn. Qed.

Lemma str_eqb_eq (a b : str) : str_eqb a b = true <-> a = b.
Proof.
  unfold str_eqb. destruct (str_eq_dec a b); split; congruence.
Qed.

End PyStrFacts.

(** ** Facts about paths *)

Module PurePathFacts.
Import PurePath PyStrFacts.

Lemma split_no_sep (sep : ascii) (s : str) :
  ~ In sep s -> split sep s = [s].
Proof.
  induction s as [|c t IH]; simpl; [reflexivity|].
  intros N. destruct (ascii_dec c sep) as [->|D]; [exfalso; auto|].
  rewrite IH by auto. reflexivity.
Qed.

Lemma split_length (sep : ascii) (s w : str) :
  In w (split sep s) -> length w <= length s.
Proof.
  revert w. induction s as [|c t IH]; simpl; intros w H.
  - destruct H as [<-|[]]. simpl. lia.
  - destruct (ascii_dec c sep).
    + destruct H as [<-|H]; [simpl; lia|]. specialize (IH _ H). lia.
    + destruct (split sep t) as [|x xs] eqn:E.
      * destruct H as [<-|[]]. simpl. lia.
      * destruct H as [<-|H].
        -- specialize (IH x (or_introl eq_refl)). simpl. lia.
        -- specialize (IH w (or_intror H)). lia.
Qed.

Lemma last_in (A : Type) (l : list A) (d : A) : l <> [] -> In (last l d) l.
Proof.
  induction l as [|x t IH]; [congruence|]. intros _.
  destruct t as [|y t']; [now left|].
  right. apply IH. discriminate.
Qed.

Lemma name_of_length (s : str) : length (name_of s) <= length s.
Proof.
  unfold name_of, parse_parts.
  destruct (filter keep_part (split "/" s)) as [|x l] eqn:E; [simpl; lia|].
  assert (I : In (last (x :: l) []) (x :: l)) by (apply last_in; discriminate).
  rewrite <- E in I at 2. apply filter_In in I as [I _].
  now apply split_length in I.
Qed.

(** [Path(name).name] is [name] when [name] is one component. *)
Lemma name_of_file_name (s : str) : Spec.is_file_name s -> name_of s = s.
Proof.
  intros [N D]. unfold name_of, parse_parts. rewrite split_no_sep by assumption.
  simpl. unfold keep_part.
  destruct (str_eq_dec s []) as [->|E]; [reflexivity|].
  assert (A : str_eqb s [] = false)
    by (unfold str_eqb; destruct (str_eq_dec s []); congruence).
  assert (B : str_eqb s (lit ".") = false)
    by (unfold str_eqb; destruct (str_eq_dec s (lit ".")); congruence).
  rewrite A, B. reflexivity.
Qed.

Lemma stem_suffix (name : str) : stem name ++ suffix name = name.
Proof.
  unfold stem, suffix. destruct (suffix_index name).
  - apply slice_to_from.
  - apply app_nil_r.
Qed.

Lemma stem_length (name : str) : length (stem name) <= length name.
Proof.
  rewrite <- (stem_suffix name) at 2. rewrite length_app. lia.
Qed.

Lemma app_same_length (A : Type) (a b c d : list A) :
  a ++ b = c ++ d -> length a = length c -> a = c /\ b = d.
Proof.
  revert c. induction a as [|x a IH]; intros [|y c] H L; try discriminate.
  - now split.
  - simpl in H. injection H as -> H. simpl in L.
    destruct (IH c H) as [-> ->]; [lia|]. now split.
Qed.

Lemma occurs_dot (s : str) (i : nat) :
  Spec.occurs_at (lit ".") s i <->
  exists before after, s = before ++ "."%char :: after /\ length before = i.
Proof. reflexivity. Qed.

(** A name that splits as [st ++ "." ++ rest], with [st] and [rest] not
    empty and no dot in [rest], has stem [st] and suffix ["." ++ rest]. *)
Lemma split_at_last_dot (st rest : str) :
  st <> [] -> rest <> [] -> ~ In "."%char rest ->
  stem (st ++ "."%char :: rest) = st /\
  suffix (st ++ "."%char :: rest) = "."%char :: rest.
Proof.
  intros Hs Hr N. set (name := st ++ "."%char :: rest).
  assert (L : Spec.last_occurrence (lit ".") name (length st)).
  { split; [now exists st, rest|].
    intros j (b & a & E & <-).
    destruct (Nat.le_gt_cases (length b) (length st)) as [|G]; [assumption|].
    exfalso. apply N. unfold name in E. simpl in E.
    assert (F : firstn (length st) (st ++ "."%char :: rest) = st)
      by (rewrite firstn_app, Nat.sub_diag, firstn_all; simpl; apply app_nil_r).
    assert (K : skipn (length st) (b ++ "."%char :: a)
                = "."%char :: rest).
    { rewrite <- E, skipn_app, Nat.sub_diag, skipn_all. reflexivity. }
    rewrite skipn_app in K.
    assert (length (skipn (length st) b) = length b - length st)
      by apply length_skipn.
    destruct (skipn (length st) b) as [|x b'] eqn:Q; [simpl in *; lia|].
    simpl in K. injection K as _ K. rewrite <- K.
    apply in_or_app. right.
    replace (length st - length b) with 0 by lia. now left. }
  apply last_occurrence_rfind in L.
  assert (I : suffix_index name = Some (Z.of_nat (length st))).
  { unfold suffix_index. rewrite L.
    assert (length name = length st + S (length rest))
      by (unfold name; rewrite length_app; reflexivity).
    assert (0 < length st) by (destruct st; [congruence | simpl; lia]).
    assert (0 < length rest) by (destruct rest; [congruence | simpl; lia]).
    assert (B : ((0 <? Z.of_nat (length st))
                 && (Z.of_nat (length st) <? Z.of_nat (length name) - 1))%Z
                = true)
      by (apply andb_true_iff; split; apply Z.ltb_lt; lia).
    now rewrite B. }
  unfold stem, suffix. rewrite I, slice_to_nat, slice_from_nat.
  unfold name. rewrite firstn_app, skipn_app, Nat.sub_diag, firstn_all, skipn_all.
  simpl. now rewrite app_nil_r.
Qed.

(** The converse: a name with an extension splits at its last dot. *)
Lemma suffix_nonempty_split (name : str) :
  suffix name <> [] ->
  exists rest, suffix name = "."%char :: rest /\ rest <> []
               /\ ~ In "."%char rest /\ stem name <> [].
Proof.
  unfold suffix, stem, suffix_index.
  set (r := rfind (lit ".") name).
  destruct (_ && _)%bool eqn:B; [|congruence].
  intros _. apply andb_true_iff in B as [B1 B2].
  apply Z.ltb_lt in B1, B2.
  assert (P : (0 <= r)%Z) by lia.
  pose proof (rfind_last_occurrence (lit ".") name P) as [O M].
  fold r in O, M. destruct O as (b & a & E & Lb).
  replace r with (Z.of_nat (length b)) by lia.
  rewrite slice_from_nat, slice_to_nat, E.
  rewrite skipn_app, firstn_app, Nat.sub_diag, firstn_all, skipn_all.
  simpl. rewrite app_nil_r. exists a.
  assert (length name = length b + S (length a))
    by (rewrite E, length_app; reflexivity).
  repeat split.
  - destruct a; [simpl in *; lia | discriminate].
  - intros In_. apply in_split in In_ as (x & y & ->).
    assert (Q : Spec.occurs_at (lit ".") name (length (b ++ "."%char :: x))).
    { exists (b ++ "."%char :: x), y. split; [|reflexivity].
      rewrite E. simpl. now rewrite <- app_assoc. }
    apply M in Q. rewrite length_app in Q. simpl in Q. lia.
  - destruct b; [simpl in *; lia | discriminate].
Qed.

End PurePathFacts.

(** ** Facts about the default pattern *)

Module ReFacts.
Import Re.

Lemma span_while_length (f : ascii -> bool) (s : str) :
  span_while f s <= length s.
Proof.
  induction s as [|c t IH]; simpl; [lia|]. destruct (f c); lia.
Qed.

Lemma match_default_length (s : str) (e : nat) :
  match_default s = Some e -> e <= length s.
Proof.
  unfold match_default.
  pose proof (span_while_length is_space s) as W.
  pose proof (length_skipn (span_while is_space s) s) as K.
  destruct (skipn (span_while is_space s) s) as [|c r]; [discriminate|].
  destruct (ascii_dec c "("%char) as [->|N].
  - pose proof (span_while_length is_digit r) as D.
    pose proof (length_skipn (span_while is_digit r) r) as K2.
    destruct (span_while is_digit r =? 0); [discriminate|].
    destruct (skipn (span_while is_digit r) r) as [|c2 r2]; [discriminate|].
    simpl in K, K2.
    destruct (ascii_dec c2 ")"%char) as [->|N2].
    + intros H. injection H as <-. lia.
    + destruct c2 as [[] [] [] [] [] [] [] []]; try discriminate.
      now destruct N2.
  - destruct c as [[] [] [] [] [] [] [] []]; try discriminate.
    now destruct N.
Qed.

(** The spans of the default pattern lie inside the string. *)
Lemma default_pattern_valid : valid_pattern default_pattern.
Proof.
  intros s. induction s as [|c t IH]; intros a b.
  - vm_compute. discriminate.
  - change (default_pattern (c :: t))
      with (match match_default (c :: t) with
            | Some e => Some (0, e)
            | None => shift_span (default_pattern t)
            end).
    destruct (match_default (c :: t)) eqn:E.
    + apply match_default_length in E. intros H. injection H as <- <-.
      simpl in *. lia.
    + destruct (default_pattern t) as [[x y]|]; [|discriminate].
      simpl. intros H. injection H as <- <-.
      specialize (IH x y eq_refl). lia.
Qed.

Lemma never_pattern_valid : valid_pattern never_pattern.
Proof. intros s a b H. discriminate. Qed.

End ReFacts.

(** ** [clean_filename]: termination, fixed points, the suffix *)

Module CleanFilenameFacts.
Import PurePath CleanFilename PyStrFacts PurePathFacts Spec.

Lemma in_firstn (A : Type) (n : nat) (l : list A) (x : A) :
  In x (firstn n l) -> In x l.
Proof.
  intros H. rewrite <- (firstn_skipn n l). apply in_or_app. now left.
Qed.

Lemma in_skipn (A : Type) (n : nat) (l : list A) (x : A) :
  In x (skipn n l) -> In x l.
Proof.
  intros H. rewrite <- (firstn_skipn n l). apply in_or_app. now right.
Qed.

Lemma in_lstrip (s : str) (x : ascii) : In x (lstrip s) -> In x s.
Proof.
  induction s as [|c t IH]; simpl; [tauto|].
  destruct (is_space c); simpl; tauto.
Qed.

Lemma in_rstrip (s : str) (x : ascii) : In x (rstrip s) -> In x s.
Proof.
  induction s as [|c t IH]; simpl; [tauto|].
  destruct (rstrip t) as [|y r]; [destruct (is_space c)|]; simpl in *; tauto.
Qed.

Lemma in_strip (s : str) (x : ascii) : In x (strip s) -> In x s.
Proof. intros H. now apply in_lstrip, in_rstrip. Qed.

(** Cutting a stem at an occurrence found by [rfind] shortens it. *)
Lemma cut_at_rfind (sub s : str) :
  sub <> [] -> (0 <= rfind sub (lower s))%Z ->
  slice_to s (rfind sub (lower s))
    = firstn (Z.to_nat (rfind sub (lower s))) s
  /\ length (strip (slice_to s (rfind sub (lower s)))) < length s.
Proof.
  intros N P. set (r := rfind sub (lower s)) in *.
  assert (E : slice_to s r = firstn (Z.to_nat r) s)
    by (rewrite <- (Z2Nat.id r) at 1 by assumption; apply slice_to_nat).
  split; [assumption|]. rewrite E.
  pose proof (occurs_at_fits (rfind_found sub (lower s) P)) as F.
  fold r in F. rewrite lower_length in F.
  pose proof (strip_length (firstn (Z.to_nat r) s)) as L.
  rewrite length_firstn in L.
  assert (0 < length sub) by (destruct sub; [congruence | simpl; lia]).
  lia.
Qed.

(** The literal sub-step returns its argument or a shorter string. *)
Lemma remove_copy_shrinks (s : str) :
  remove_copy s = s \/ length (remove_copy s) < length s.
Proof.
  unfold remove_copy.
  pose proof (rfind_lower_bound (lit ".copy") (lower s)) as D.
  destruct (_ >? _)%Z eqn:G.
  - right. apply Z.gtb_lt in G. apply cut_at_rfind; [discriminate | lia].
  - destruct (rfind (lit ".copy") (lower s) =? -1)%Z eqn:Q; cbn [negb].
    + now left.
    + right. apply Z.eqb_neq in Q. apply cut_at_rfind; [discriminate | lia].
Qed.

Lemma in_remove_copy (s : str) (x : ascii) : In x (remove_copy s) -> In x s.
Proof.
  unfold remove_copy, slice_to.
  destruct (_ >? _)%Z; [|destruct (negb _)]; intros H;
    try (apply in_strip, in_firstn in H); assumption.
Qed.

Section Facts.

Variable p : Re.pattern.
Variable dc : bool.

Lemma in_remove_pattern (s : str) (x : ascii) :
  In x (remove_pattern p s) -> In x s.
Proof.
  unfold remove_pattern. destruct (p s) as [[a b]|]; [|tauto].
  intros H. apply in_strip, in_app_or in H as [H|H];
    [now apply in_firstn in H | now apply in_skipn in H].
Qed.

Lemma in_loop_body (s : str) (x : ascii) : In x (loop_body p dc s) -> In x s.
Proof.
  unfold loop_body. destruct dc; intros H.
  - now apply in_remove_copy, in_remove_pattern in H.
  - now apply in_remove_pattern in H.
Qed.

Lemma in_clean_loop (fuel : nat) (s r : str) (n : nat) (x : ascii) :
  clean_loop p dc fuel s = Some (r, n) -> In x r -> In x s.
Proof.
  revert s n. induction fuel as [|f IH]; intros s n; simpl; [discriminate|].
  destruct (str_eq_dec (loop_body p dc s) s) as [E|E].
  - intros H. injection H as <- _. apply in_loop_body.
  - destruct (clean_loop p dc f (loop_body p dc s)) as [[r' n']|] eqn:C;
      [|discriminate].
    intros H I. injection H as <- _.
    eapply in_loop_body, IH; eassumption.
Qed.

(** What the loop returns is a fixed point of its body. *)
Lemma clean_loop_fixed (fuel : nat) (s r : str) (n : nat) :
  clean_loop p dc fuel s = Some (r, n) -> loop_body p dc r = r.
Proof.
  revert s n. induction fuel as [|f IH]; intros s n; simpl; [discriminate|].
  destruct (str_eq_dec (loop_body p dc s) s) as [E|E].
  - intros H. injection H as <- _. now rewrite E.
  - destruct (clean_loop p dc f (loop_body p dc s)) as [[r' n']|] eqn:C;
      [|discriminate].
    intros H. injection H as <- _. eapply IH; eassumption.
Qed.

(** On a fixed point the loop stops after one iteration. *)
Lemma clean_loop_on_fixed (fuel : nat) (s : str) :
  loop_body p dc s = s -> clean_loop p dc (S fuel) s = Some (s, 1).
Proof.
  intros E. simpl. destruct (str_eq_dec (loop_body p dc s) s); [|contradiction].
  now rewrite E.
Qed.

(** More fuel does not change the result. *)
Lemma clean_loop_more_fuel (f1 f2 : nat) (s : str) (x : str * nat) :
  clean_loop p dc f1 s = Some x -> f1 <= f2 -> clean_loop p dc f2 s = Some x.
Proof.
  revert f2 s x. induction f1 as [|f IH]; intros f2 s x; simpl; [discriminate|].
  intros H L. destruct f2 as [|g]; [lia|]. simpl.
  destruct (str_eq_dec (loop_body p dc s) s); [assumption|].
  destruct (clean_loop p dc f (loop_body p dc s)) as [y|] eqn:C; [|discriminate].
  rewrite (IH g _ y C) by lia. assumption.
Qed.

(** A file name without markers in its stem comes back as it is. *)
Lemma unmarked_unchanged (filename : str) :
  is_file_name filename ->
  p (stem filename) = None ->
  (dc = true -> absent (lit ".copy") (lower (stem filename))
                /\ absent (lit " - copy") (lower (stem filename))) ->
  clean_filename p dc filename = Some filename.
Proof.
  intros F M C. unfold clean_filename, clean_filename_fuel.
  rewrite (name_of_file_name F).
  rewrite clean_loop_on_fixed; [now rewrite stem_suffix|].
  unfold loop_body, remove_pattern. rewrite M.
  destruct dc; [|reflexivity].
  destruct (C eq_refl) as [A B]. apply rfind_absent in A, B.
  unfold remove_copy. rewrite A, B. reflexivity.
Qed.

Hypothesis p_valid : Re.valid_pattern p.

(** The pattern sub-step returns its argument or a shorter string. *)
Lemma remove_pattern_shrinks (s : str) :
  remove_pattern p s = s \/ length (remove_pattern p s) < length s.
Proof.
  unfold remove_pattern. destruct (p s) as [[a b]|] eqn:E; [|now left].
  destruct (p_valid E) as [AB BL].
  set (t := firstn a s ++ skipn b s).
  assert (L : length t = length s - (b - a)).
  { unfold t. rewrite length_app, length_firstn, length_skipn. lia. }
  destruct (Nat.eq_dec a b) as [->|N].
  - assert (T : t = s) by apply firstn_skipn. rewrite T.
    apply strip_same_or_shorter.
  - right. pose proof (strip_length t). lia.
Qed.

Lemma loop_body_shrinks (s : str) :
  loop_body p dc s = s \/ length (loop_body p dc s) < length s.
Proof.
  unfold loop_body.
  destruct (remove_pattern_shrinks s) as [E|L].
  - rewrite E. destruct dc; [apply remove_copy_shrinks | now left].
  - destruct dc; [|now right].
    destruct (remove_copy_shrinks (remove_pattern p s)) as [E|L2].
    + rewrite E. now right.
    + right. lia.
Qed.

Lemma clean_loop_terminates (fuel : nat) (s : str) :
  length s < fuel ->
  exists r n, clean_loop p dc fuel s = Some (r, n)
              /\ 1 <= n <= length s + 1 /\ loop_body p dc r = r.
Proof.
  revert s. induction fuel as [|f IH]; intros s L; [lia|]. simpl.
  destruct (str_eq_dec (loop_body p dc s) s) as [E|E].
  - exists (loop_body p dc s), 1. repeat split; try lia. now rewrite E.
  - destruct (loop_body_shrinks s) as [|S']; [contradiction|].
    destruct (IH (loop_body p dc s)) as (r & n & C & N & X); [lia|].
    rewrite C. exists r, (S n). repeat split; try lia. assumption.
Qed.

Lemma clean_filename_returns (filename : str) :
  exists r, clean_filename p dc filename = Some r.
Proof.
  unfold clean_filename, clean_filename_fuel.
  destruct (clean_loop_terminates (fuel := S (length filename))
              (stem (name_of filename))) as (r & n & C & _).
  - pose proof (stem_length (name_of filename)).
    pose proof (name_of_length filename). lia.
  - rewrite C. eexists. reflexivity.
Qed.

End Facts.

(** C10.  For every valid compiled pattern and either value of the copy
    flag, an iteration of the loop of [clean_filename] leaves the stem
    unchanged (and then the loop exits) or makes it strictly shorter; with
    any fuel above the length of the stem the loop returns, after at most
    length-of-stem plus one iterations, and [clean_filename] returns for
    every filename. *)
Theorem C10_clean_filename_terminates (p : Re.pattern) (dc : bool) :
  Re.valid_pattern p ->
  (forall s, loop_body p dc s = s \/ length (loop_body p dc s) < length s)
  /\ (forall s fuel, loop_body p dc s = s ->
        clean_loop p dc (S fuel) s = Some (s, 1))
  /\ (forall s fuel, length s < fuel ->
        exists r n, clean_loop p dc fuel s = Some (r, n)
                    /\ 1 <= n <= length s + 1)
  /\ (forall filename, exists r, clean_filename p dc filename = Some r).
Proof.
  intros V. repeat split.
  - intros s. now apply loop_body_shrinks.
  - intros s fuel E. now apply clean_loop_on_fixed.
  - intros s fuel L.
    destruct (@clean_loop_terminates p dc V fuel s L) as (r & n & C & N & _).
    now exists r, n.
  - intros filename. now apply clean_filename_returns.
Qed.

Lemma C10_witness :
  (forall s, loop_body Re.default_pattern true s = s
             \/ length (loop_body Re.default_pattern true s) < length s)
  /\ (forall s fuel, loop_body Re.default_pattern true s = s ->
        clean_loop Re.default_pattern true (S fuel) s = Some (s, 1))
  /\ (forall s fuel, length s < fuel ->
        exists r n, clean_loop Re.default_pattern true fuel s = Some (r, n)
                    /\ 1 <= n <= length s + 1)
  /\ (forall filename,
        exists r, clean_filename Re.default_pattern true filename = Some r).
Proof.
  exact (C10_clean_filename_terminates true ReFacts.default_pattern_valid).
Defined.

(** The loop really iterates: three iterations on a stem with two markers. *)
Example clean_loop_three_iterations :
  clean_loop Re.default_pattern true 20 (lit "a (1) (2)")
  = Some (lit "a", 3).
Proof. vm_compute. reflexivity. Qed.

(** *** Occurrences that ignore case *)

Lemma occurs_nocase_lower (sub s : str) (i : nat) :
  occurs_nocase sub s i <-> occurs_at (lower sub) (lower s) i.
Proof.
  split.
  - intros (b & w & a & -> & <- & E).
    exists (lower b), (lower a). unfold lower in *.
    rewrite !map_app, E, length_map. now split.
  - intros (b & a & E & <-).
    assert (F : length (lower s) = length b + (length sub + length a))
      by (rewrite E, !length_app, lower_length; reflexivity).
    rewrite lower_length in F.
    exists (firstn (length b) s),
           (firstn (length sub) (skipn (length b) s)),
           (skipn (length sub) (skipn (length b) s)).
    repeat split.
    + now rewrite !firstn_skipn.
    + rewrite length_firstn. lia.
    + unfold lower in *. rewrite <- firstn_map, <- skipn_map, E.
      rewrite skipn_app, Nat.sub_diag, skipn_all. simpl.
      rewrite firstn_app, length_map, Nat.sub_diag, firstn_all2
        by (rewrite length_map; lia).
      simpl. apply app_nil_r.
Qed.

Lemma last_nocase_lower (sub s : str) (i : nat) :
  last_nocase sub s i <-> last_occurrence (lower sub) (lower s) i.
Proof.
  unfold last_nocase, last_occurrence. rewrite occurs_nocase_lower.
  split; intros [O L]; (split; [assumption|]); intros j Hj;
    apply L; now apply occurs_nocase_lower.
Qed.

Lemma absent_nocase_lower (sub s : str) :
  absent_nocase sub s <-> absent (lower sub) (lower s).
Proof.
  unfold absent_nocase, absent.
  split; intros A i O; apply (A i); now apply occurs_nocase_lower.
Qed.

(** [rfind] on the lower-cased stem finds the last occurrence, case
    ignored, of a lower-case marker. *)
Lemma rfind_last_nocase (sub s : str) (i : nat) :
  lower sub = sub ->
  (rfind sub (lower s) = Z.of_nat i <-> last_nocase sub s i).
Proof.
  intros E. rewrite last_nocase_lower, E. split.
  - intros R. rewrite <- (Nat2Z.id i), <- R.
    apply rfind_last_occurrence. lia.
  - apply last_occurrence_rfind.
Qed.

Lemma rfind_absent_nocase (sub s : str) :
  lower sub = sub ->
  (rfind sub (lower s) = (-1)%Z <-> absent_nocase sub s).
Proof.
  intros E. rewrite absent_nocase_lower, E. apply rfind_absent.
Qed.

(** *** The literal sub-step *)

(** On stems of code points below 256, where lower-casing keeps every
    index.  The literal sub-step runs exactly when copy detection is on.
    It looks, ignoring case, for the last [.copy] and the last [ - copy] in
    the stem: when both occur they occur at different indices and the stem
    is cut at the later one and stripped; when only one occurs the stem is
    cut there and stripped; when neither occurs the stem is unchanged. *)
Theorem literal_substep_below_256 (p : Re.pattern) (s : str) :
  loop_body p true s = remove_copy (remove_pattern p s)
  /\ loop_body p false s = remove_pattern p s
  /\ (forall i j,
        last_nocase (lit ".copy") s i -> last_nocase (lit " - copy") s j ->
        i <> j /\ remove_copy s = strip (firstn (Nat.max i j) s))
  /\ (forall i,
        last_nocase (lit ".copy") s i -> absent_nocase (lit " - copy") s ->
        remove_copy s = strip (firstn i s))
  /\ (forall j,
        absent_nocase (lit ".copy") s -> last_nocase (lit " - copy") s j ->
        remove_copy s = strip (firstn j s))
  /\ (absent_nocase (lit ".copy") s -> absent_nocase (lit " - copy") s ->
        remove_copy s = s).
Proof.
  split; [reflexivity|]. split; [reflexivity|].
  unfold remove_copy. repeat split.
  - intros -> .
    destruct H as [(b & w & a & E1 & L1 & W1) _].
    destruct H0 as [(b' & w' & a' & E2 & L2 & W2) _].
    rewrite E1 in E2.
    destruct (app_same_length _ _ _ _ E2) as [_ E3]; [lia|].
    destruct w as [|x w]; [discriminate|].
    destruct w' as [|y w']; [discriminate|].
    injection E3 as -> _. injection W1 as W1 _. injection W2 as W2 _.
    rewrite W1 in W2. discriminate.
  - apply rfind_last_nocase in H, H0; try reflexivity.
    rewrite H, H0.
    destruct (Z.of_nat j >? Z.of_nat i)%Z eqn:G.
    + apply Z.gtb_lt in G. rewrite slice_to_nat.
      now replace (Nat.max i j) with j by lia.
    + assert (Q : (Z.of_nat i =? -1)%Z = false) by (apply Z.eqb_neq; lia).
      rewrite Q. cbn [negb]. rewrite slice_to_nat.
      assert (G' : ~ (Z.of_nat i < Z.of_nat j)%Z)
        by (intros X; apply Z.gtb_lt in X; congruence).
      now replace (Nat.max i j) with i by lia.
  - intros i L A.
    apply rfind_last_nocase in L; [|reflexivity].
    apply rfind_absent_nocase in A; [|reflexivity].
    rewrite L, A.
    assert (G : (-1 >? Z.of_nat i)%Z = false).
    { destruct (-1 >? Z.of_nat i)%Z eqn:G; [|reflexivity].
      apply Z.gtb_lt in G. lia. }
    assert (Q : (Z.of_nat i =? -1)%Z = false) by (apply Z.eqb_neq; lia).
    rewrite G, Q. cbn [negb]. now rewrite slice_to_nat.
  - intros j A L.
    apply rfind_last_nocase in L; [|reflexivity].
    apply rfind_absent_nocase in A; [|reflexivity].
    rewrite L, A.
    assert (G : (Z.of_nat j >? -1)%Z = true) by (apply Z.gtb_lt; lia).
    rewrite G. now rewrite slice_to_nat.
  - intros A B.
    apply rfind_absent_nocase in A, B; try reflexivity.
    rewrite A, B. reflexivity.
Qed.

Example literal_substep_later_index :
  8 <> 1
  /\ remove_copy (lit "a - Copy.COPY")
     = strip (firstn (Nat.max 8 1) (lit "a - Copy.COPY")).
Proof.
  destruct (literal_substep_below_256 Re.never_pattern (lit "a - Copy.COPY"))
    as (_ & _ & both & _).
  apply (both 8 1).
  - apply rfind_last_nocase; reflexivity.
  - apply rfind_last_nocase; reflexivity.
Defined.

Example remove_copy_later_wins :
  remove_copy (lit "a - Copy.COPY") = lit "a - Copy"
  /\ remove_copy (lit "a.copy - copy") = lit "a.copy"
  /\ remove_copy (lit "photo - copy") = lit "photo"
  /\ remove_copy (lit "photo") = lit "photo".
Proof. vm_compute. repeat split. Qed.

(** *** Names without markers *)

(** C8.  A file name whose stem has no match of the pattern and, when copy
    detection is on, no [.copy] and no [ - copy] (case ignored), is
    returned unchanged. *)
Theorem C8_no_marker_unchanged (p : Re.pattern) (dc : bool) (filename : str) :
  is_file_name filename ->
  p (stem filename) = None ->
  (dc = true -> absent_nocase (lit ".copy") (stem filename)
                /\ absent_nocase (lit " - copy") (stem filename)) ->
  clean_filename p dc filename = Some filename.
Proof.
  intros F M C. apply unmarked_unchanged; try assumption.
  intros D. destruct (C D) as [A B].
  apply absent_nocase_lower in A, B. now split.
Qed.

Lemma readme_is_file_name : is_file_name (lit "readme.txt").
Proof.
  split; [|discriminate]. vm_compute. intuition discriminate.
Defined.

Lemma C8_witness :
  clean_filename Re.default_pattern true (lit "readme.txt")
  = Some (lit "readme.txt").
Proof.
  apply (@C8_no_marker_unchanged Re.default_pattern true (lit "readme.txt")).
  - exact readme_is_file_name.
  - reflexivity.
  - intros _. split; apply rfind_absent_nocase; reflexivity.
Defined.

(** *** The extension *)

(** C9.  The output of [clean_filename] is the cleaned stem followed by the
    suffix of the input name, as it was split off; a marker in the
    extension is therefore never removed: a name [st.ext] whose stem [st]
    has no marker is returned unchanged whatever [ext] is.  So
    [file.copy], whose suffix is [.copy], stays, while [photo.copy.jpg]
    becomes [photo.jpg]. *)
Theorem C9_extension_not_searched (p : Re.pattern) (dc : bool) :
  (forall filename out,
     clean_filename p dc filename = Some out ->
     exists cleaned_stem n,
       clean_loop p dc (S (length filename)) (stem (name_of filename))
         = Some (cleaned_stem, n)
       /\ out = cleaned_stem ++ suffix (name_of filename))
  /\ (forall st ext,
        st <> [] -> ext <> [] -> ~ In "."%char ext ->
        is_file_name (st ++ "."%char :: ext) ->
        p st = None ->
        (dc = true -> absent_nocase (lit ".copy") st
                      /\ absent_nocase (lit " - copy") st) ->
        clean_filename p dc (st ++ "."%char :: ext)
          = Some (st ++ "."%char :: ext))
  /\ suffix (lit "file.copy") = lit ".copy"
  /\ clean_filename Re.default_pattern true (lit "file.copy")
       = Some (lit "file.copy")
  /\ clean_filename Re.default_pattern true (lit "photo.copy.jpg")
       = Some (lit "photo.jpg").
Proof.
  split; [|split; [|repeat split]].
  - intros filename out. unfold clean_filename, clean_filename_fuel.
    destruct (clean_loop _ _ _ _) as [[c n]|]; [|discriminate].
    intros H. injection H as <-. now exists c, n.
  - intros st ext S1 E1 N F M C.
    destruct (split_at_last_dot S1 E1 N) as [St _].
    apply unmarked_unchanged; rewrite ?St; try assumption.
    intros D. destruct (C D) as [A B].
    apply absent_nocase_lower in A, B. now split.
Qed.

Lemma C9_witness :
  clean_filename Re.default_pattern true (lit "file.copy")
  = Some (lit "file.copy").
Proof.
  destruct (C9_extension_not_searched Re.default_pattern true)
    as (_ & unchanged & _).
  apply (unchanged (lit "file") (lit "copy")).
  - discriminate.
  - discriminate.
  - vm_compute. intuition discriminate.
  - split; [vm_compute; intuition discriminate | discriminate].
  - reflexivity.
  - intros _. split; apply rfind_absent_nocase; reflexivity.
Defined.

(** *** Normalising twice *)

(** The output of [clean_filename] is split into stem and suffix anew when
    it is normalised again.  When the first pass empties the stem, what was
    the extension becomes the stem of the second pass. *)
Lemma C2_counterexample :
  ~ (forall filename out,
       clean_filename Re.default_pattern true filename = Some out ->
       clean_filename Re.default_pattern true out = Some out).
Proof.
  intros H.
  specialize (H (lit "(1).copy") (lit ".copy") eq_refl).
  vm_compute in H. discriminate.
Qed.

(** The same without copy detection, and for a stem cleaned to a dot. *)
Example renormalising_changes_the_output :
  clean_filename Re.default_pattern true (lit "(1).copy") = Some (lit ".copy")
  /\ clean_filename Re.default_pattern true (lit ".copy") = Some []
  /\ clean_filename Re.default_pattern false (lit "(2).x (1)")
       = Some (lit ".x (1)")
  /\ clean_filename Re.default_pattern false (lit ".x (1)") = Some (lit ".x")
  /\ clean_filename Re.default_pattern false (lit ". (1)") = Some (lit ".")
  /\ clean_filename Re.default_pattern false (lit ".") = Some [].
Proof. vm_compute. repeat split. Qed.

Lemma not_in_no_dot (s : str) :
  ~ In "."%char s -> rfind (lit ".") s = (-1)%Z.
Proof.
  intros N. apply rfind_absent. intros i (b & a & E & _).
  apply N. rewrite E. apply in_or_app. right. now left.
Qed.

Lemma split_parts_no_sep (sep : ascii) (s w : str) :
  In w (split sep s) -> ~ In sep w.
Proof.
  revert w. induction s as [|c t IH]; simpl; intros w I.
  - destruct I as [<-|[]]. intros [].
  - destruct (ascii_dec c sep) as [->|N].
    + destruct I as [<-|I]; [intros [] | now apply IH].
    + destruct (split sep t) as [|w0 ws] eqn:E.
      * destruct I as [<-|[]]. simpl. intros [X|[]]. now apply N.
      * destruct I as [<-|I].
        -- simpl. intros [X|X]; [now apply N|].
           apply (IH w0); [now left | assumption].
        -- apply IH. now right.
Qed.

(** [Path(s).name] holds no slash. *)
Lemma name_of_no_sep (s : str) : ~ In "/"%char (name_of s).
Proof.
  unfold name_of, parse_parts.
  destruct (filter keep_part (split "/"%char s)) as [|w ws] eqn:E.
  - simpl. tauto.
  - assert (I : In (last (w :: ws) []) (w :: ws))
      by (apply last_in; discriminate).
    assert (J : In (last (w :: ws) []) (filter keep_part (split "/"%char s)))
      by (rewrite E; exact I).
    apply filter_In in J as [J _]. now apply split_parts_no_sep in J.
Qed.

(** C2, amended.  The cleaned stem is a fixed point of the loop body, and
    the output is split into stem and suffix anew when it is normalised
    again.  For every file name and its output [out]: normalising [out]
    again returns [out] exactly when [out] is not [.] and the stem of
    [out] is left as it is by one pass of the loop body.  That is so
    whenever [out] is not [.] and has the extension that was split off
    the input: for every input with an extension whose cleaned stem is
    not empty, and for every input without an extension whose output has
    none either, hidden files such as [.bashrc (1)] included. *)
Theorem C2_idempotent_when_split_is_kept
  (p : Re.pattern) (dc : bool) (filename out : str) :
  clean_filename p dc filename = Some out ->
  (clean_filename p dc out = Some out
   <-> out <> lit "." /\ loop_body p dc (stem out) = stem out)
  /\ (suffix out = suffix (name_of filename) -> out <> lit "." ->
      clean_filename p dc out = Some out)
  /\ (suffix (name_of filename) <> [] -> out <> suffix (name_of filename) ->
      clean_filename p dc out = Some out)
  /\ (suffix (name_of filename) = [] -> suffix out = [] -> out <> lit "." ->
      clean_filename p dc out = Some out).
Proof.
  intros C.
  unfold clean_filename, clean_filename_fuel in C.
  destruct (clean_loop p dc (S (length filename)) (stem (name_of filename)))
    as [[c n]|] eqn:L; [|discriminate].
  injection C as E.
  pose proof (clean_loop_fixed _ _ _ _ L) as Fix.
  assert (NS : ~ In "/"%char out).
  { intros H. apply (name_of_no_sep filename).
    rewrite <- (stem_suffix (name_of filename)).
    rewrite <- E in H.
    apply in_app_or in H as [H|H]; apply in_or_app; [left | now right].
    eapply in_clean_loop; eassumption. }
  assert (Rev : out <> lit "." -> loop_body p dc (stem out) = stem out ->
                clean_filename p dc out = Some out).
  { intros Ne Fx. unfold clean_filename, clean_filename_fuel.
    rewrite (name_of_file_name (conj NS Ne)).
    rewrite clean_loop_on_fixed by assumption.
    now rewrite stem_suffix. }
  assert (Kept : suffix out = suffix (name_of filename) -> out <> lit "." ->
                 clean_filename p dc out = Some out).
  { intros Sx Ne. apply Rev; [assumption|].
    assert (St : stem out = c).
    { apply (app_inv_tail (suffix out)). rewrite stem_suffix, Sx.
      now symmetry. }
    now rewrite St. }
  split; [|split; [|split]].
  - split; [|intros [Ne Fx]; now apply Rev].
    intros H.
    assert (Ne : out <> lit ".").
    { intros ->. unfold clean_filename, clean_filename_fuel in H.
      change (name_of (lit ".")) with (@nil ascii) in H.
      change (stem []) with (@nil ascii) in H.
      change (suffix []) with (@nil ascii) in H.
      destruct (clean_loop p dc (S (length (lit "."))) []) as [[r m]|] eqn:L2;
        [|discriminate].
      injection H as H. rewrite app_nil_r in H.
      apply (@in_clean_loop p dc _ _ _ _ "."%char L2).
      rewrite H. now left. }
    split; [assumption|].
    unfold clean_filename, clean_filename_fuel in H.
    rewrite (name_of_file_name (conj NS Ne)) in H.
    destruct (clean_loop p dc (S (length out)) (stem out)) as [[r m]|] eqn:L2;
      [|discriminate].
    injection H as H.
    assert (St : r = stem out).
    { apply (app_inv_tail (suffix out)). now rewrite stem_suffix. }
    rewrite <- St. apply (clean_loop_fixed _ _ _ _ L2).
  - exact Kept.
  - intros Sx Ne.
    destruct (suffix_nonempty_split (name_of filename) Sx)
      as (rest & S1 & R & ND & _).
    rewrite S1 in *.
    assert (C0 : c <> []) by (intros ->; now apply Ne).
    destruct (split_at_last_dot C0 R ND) as [_ Sf].
    rewrite E in Sf.
    apply Kept; [assumption|].
    intros D. rewrite D in E.
    destruct c as [|x [|y c]]; try congruence; discriminate E.
  - intros Sx So Ne. apply Kept; [congruence | assumption].
Qed.

Lemma C2_witness :
  (clean_filename Re.default_pattern true (lit "a - copy.copy.txt")
     = Some (lit "a.txt")
   /\ clean_filename Re.default_pattern true (lit "a.txt") = Some (lit "a.txt"))
  /\ (clean_filename Re.default_pattern true (lit ".bashrc (1)")
        = Some (lit ".bashrc")
      /\ clean_filename Re.default_pattern true (lit ".bashrc")
           = Some (lit ".bashrc")).
Proof.
  split; (split; [reflexivity|]).
  - destruct (@C2_idempotent_when_split_is_kept Re.default_pattern true
                (lit "a - copy.copy.txt") (lit "a.txt") eq_refl)
      as (_ & Kept & _).
    apply Kept; [reflexivity | discriminate].
  - destruct (@C2_idempotent_when_split_is_kept Re.default_pattern true
                (lit ".bashrc (1)") (lit ".bashrc") eq_refl)
      as (_ & _ & _ & Hidden).
    apply Hidden; [reflexivity | reflexivity | discriminate].
Defined.

End CleanFilenameFacts.

(** ** Facts about [list.sort] *)

Module PySortFacts.
Import PySort.

Section Any.

Variables (A : Type) (le : A -> A -> bool).

Lemma insert_perm (x : A) (l : list A) : Permutation (x :: l) (insert le x l).
Proof.
  induction l as [|y t IH]; simpl; [reflexivity|].
  destruct (le x y); [reflexivity|].
  rewrite perm_swap. now apply perm_skip.
Qed.

Lemma sort_perm (l : list A) : Permutation l (sort le l).
Proof.
  induction l as [|x t IH]; simpl; [reflexivity|].
  rewrite <- insert_perm. now apply perm_skip.
Qed.

End Any.

(** Sorting commutes with a map that the order looks through. *)
Lemma sort_map (A B : Type) (le : B -> B -> bool) (g : A -> B) (l : list A) :
  sort le (map g l) = map g (sort (fun a b => le (g a) (g b)) l).
Proof.
  induction l as [|x t IH]; simpl; [reflexivity|]. rewrite IH.
  generalize (sort (fun a b => le (g a) (g b)) t) as s.
  induction s as [|y s IHs]; simpl; [reflexivity|].
  destruct (le (g x) (g y)); simpl; [reflexivity|]. now rewrite IHs.
Qed.

Section ByKey.

Variables (A : Type) (key : A -> Z).

Lemma insert_sorted (x : A) (l : list A) :
  Sorted (key_rel key) l -> Sorted (key_rel key) (insert (key_le key) x l).
Proof.
  induction l as [|y t IH]; simpl; intros S.
  - repeat constructor.
  - unfold key_le at 1. destruct (key x <=? key y)%Z eqn:E.
    + apply Z.leb_le in E. constructor; [assumption|]. now constructor.
    + apply Z.leb_gt in E. inversion S as [|? ? St Hd]; subst.
      constructor; [now apply IH|].
      destruct t as [|z t']; simpl.
      * constructor. unfold key_rel. lia.
      * unfold key_le at 1. destruct (key x <=? key z)%Z.
        -- constructor. unfold key_rel. lia.
        -- inversion Hd; subst. now constructor.
Qed.

Lemma sort_sorted (l : list A) : Sorted (key_rel key) (sort (key_le key) l).
Proof.
  induction l as [|x t IH]; simpl; [constructor|]. now apply insert_sorted.
Qed.

Lemma sort_strongly_sorted (l : list A) :
  StronglySorted (key_rel key) (sort (key_le key) l).
Proof.
  apply Sorted_StronglySorted; [|apply sort_sorted].
  intros a b c. unfold key_rel. lia.
Qed.

(** Stability: among the elements with one key the order is kept. *)
Lemma insert_stable (t : Z) (x : A) (l : list A) :
  filter (fun y => key y =? t)%Z (insert (key_le key) x l)
  = filter (fun y => key y =? t)%Z (x :: l).
Proof.
  induction l as [|y l IH]; [reflexivity|].
  simpl insert. unfold key_le at 1.
  destruct (key x <=? key y)%Z eqn:E; [reflexivity|].
  apply Z.leb_gt in E.
  change (filter (fun y => key y =? t)%Z (y :: insert (key_le key) x l))
    with (if (key y =? t)%Z
          then y :: filter (fun y => key y =? t)%Z (insert (key_le key) x l)
          else filter (fun y => key y =? t)%Z (insert (key_le key) x l)).
  rewrite IH. simpl.
  destruct (key x =? t)%Z eqn:X, (key y =? t)%Z eqn:Y; try reflexivity.
  apply Z.eqb_eq in X, Y. lia.
Qed.

Lemma sort_stable (t : Z) (l : list A) :
  filter (fun y => key y =? t)%Z (sort (key_le key) l)
  = filter (fun y => key y =? t)%Z l.
Proof.
  induction l as [|x l IH]; [reflexivity|].
  simpl sort. rewrite insert_stable. simpl. now rewrite IH.
Qed.

(** The head of the sorted list has the least key. *)
Lemma sort_head_least (l : list A) (x : A) (rest : list A) :
  sort (key_le key) l = x :: rest -> forall y, In y l -> (key x <= key y)%Z.
Proof.
  intros E y I.
  pose proof (sort_strongly_sorted l) as S. rewrite E in S.
  apply (Permutation_in _ (sort_perm (key_le key) l)) in I. rewrite E in I.
  destruct I as [<-|I]; [lia|].
  inversion S as [|? ? _ F]; subst.
  rewrite Forall_forall in F. now apply F.
Qed.

End ByKey.

End PySortFacts.

(** ** The duplicate grouper *)

Module DuplicatesRemoveFacts.
Import PurePath DupFs DuplicatesRemove DupSpec PyStrFacts PySortFacts.

Lemma lookup_add_file (k k' : str) (f : path) (gs : groups) :
  lookup k (add_file k' f gs)
  = if str_eq_dec k' k then Some (members_of k gs ++ [f]) else lookup k gs.
Proof.
  unfold members_of. induction gs as [|[k0 files] rest IH]; simpl.
  - destruct (str_eq_dec k' k); reflexivity.
  - destruct (str_eq_dec k0 k') as [->|N]; simpl.
    + destruct (str_eq_dec k' k); reflexivity.
    + destruct (str_eq_dec k0 k) as [->|N2].
      * destruct (str_eq_dec k' k); [congruence | reflexivity].
      * apply IH.
Qed.

Lemma keys_add_file (k : str) (f : path) (gs : groups) :
  NoDup (map fst gs) -> NoDup (map fst (add_file k f gs)).
Proof.
  assert (K : forall x, In x (map fst (add_file k f gs))
                        -> x = k \/ In x (map fst gs)).
  { induction gs as [|[k0 files] rest IH]; simpl.
    - intros x [<-|[]]. now left.
    - destruct (str_eq_dec k0 k); simpl; intros x [<-|H]; auto.
      destruct (IH _ H); auto. }
  revert K. induction gs as [|[k0 files] rest IH]; simpl; intros K N.
  - repeat constructor. tauto.
  - inversion N as [|? ? NI N']; subst.
    destruct (str_eq_dec k0 k) as [->|D]; simpl; [now constructor|].
    constructor.
    + intros I. clear IH K N.
      induction rest as [|[k1 f1] rest IH]; simpl in *.
      * destruct I as [->|[]]. congruence.
      * destruct (str_eq_dec k1 k); simpl in *; [tauto|].
        destruct I as [->|I]; [tauto|]. inversion N'; subst.
        apply IH; tauto.
    + apply IH; [|assumption].
      clear. induction rest as [|[k1 f1] rest IH]; simpl.
      * intros x [<-|[]]. now left.
      * destruct (str_eq_dec k1 k); simpl; intros x [<-|H]; auto.
        destruct (IH _ H); auto.
Qed.

Lemma in_lookup (k : str) (files : list path) (gs : groups) :
  NoDup (map fst gs) -> In (k, files) gs -> lookup k gs = Some files.
Proof.
  induction gs as [|[k0 f0] rest IH]; simpl; [tauto|].
  intros N [E|I].
  - injection E as -> ->. destruct (str_eq_dec k k); congruence.
  - inversion N as [|? ? NI N']; subst.
    destruct (str_eq_dec k0 k) as [->|D]; [|now apply IH].
    exfalso. apply NI. now apply (in_map fst) in I.
Qed.

Lemma lookup_in (k : str) (files : list path) (gs : groups) :
  lookup k gs = Some files -> In (k, files) gs.
Proof.
  induction gs as [|[k0 f0] rest IH]; simpl; [discriminate|].
  destruct (str_eq_dec k0 k) as [->|D].
  - intros H. injection H as ->. now left.
  - intros H. right. now apply IH.
Qed.

Section Run.

Variable fs : filesystem.
Variable p : Re.pattern.
Variable dc : bool.

Lemma has_key_iff (k : str) (f : path) :
  has_key p dc k f = true <-> group_key p dc f = Some k.
Proof.
  unfold has_key. destruct (group_key p dc f) as [k'|].
  - rewrite str_eqb_eq. split; congruence.
  - split; discriminate.
Qed.

(** The grouping loop: each key maps to its files in discovery order. *)
Lemma group_files_lookup (all_files : list path) (gs gs' : groups) :
  group_files p dc all_files gs = Some gs' ->
  forall k,
    lookup k gs'
    = match members p dc k all_files with
      | [] => lookup k gs
      | m => Some (members_of k gs ++ m)
      end.
Proof.
  revert gs. induction all_files as [|f rest IH]; intros gs; simpl.
  - intros H k. now injection H as ->.
  - destruct (group_key p dc f) as [kf|] eqn:K; [|discriminate].
    intros H k. rewrite (IH _ H k). unfold members. simpl.
    unfold has_key at 2. rewrite K.
    unfold members_of at 1. rewrite lookup_add_file.
    unfold str_eqb. destruct (str_eq_dec kf k) as [->|D].
    + destruct (filter (has_key p dc k) rest); [reflexivity|].
      now rewrite <- app_assoc.
    + reflexivity.
Qed.

Lemma group_files_keys (all_files : list path) (gs gs' : groups) :
  group_files p dc all_files gs = Some gs' ->
  NoDup (map fst gs) -> NoDup (map fst gs').
Proof.
  revert gs. induction all_files as [|f rest IH]; intros gs; simpl.
  - intros H. now injection H as ->.
  - destruct (group_key p dc f) as [kf|]; [|discriminate].
    intros H N. apply (IH _ H). now apply keys_add_file.
Qed.

Lemma group_files_returns (all_files : list path) (gs : groups) :
  Re.valid_pattern p -> exists gs', group_files p dc all_files gs = Some gs'.
Proof.
  intros V. revert gs. induction all_files as [|f rest IH]; intros gs; simpl.
  - now exists gs.
  - unfold group_key.
    destruct (CleanFilenameFacts.clean_filename_returns dc V (name f))
      as [c ->].
    apply IH.
Qed.

(** The stat loop keeps the readable files, in order, with their stat. *)
Lemma stat_files_kept (files : list path) :
  fst (stat_files fs files)
  = map (fun f => (f, stat_of fs f)) (filter (readable fs) files).
Proof.
  induction files as [|f rest IH]; simpl; [reflexivity|].
  destruct (stat_files fs rest) as [ok w]. simpl in IH.
  assert (R : readable fs f = match stat fs StatForSort f with
                              | inl _ => true
                              | inr _ => false
                              end) by reflexivity.
  destruct (stat fs StatForSort f) as [st|err] eqn:E; rewrite R; simpl.
  - f_equal; [|assumption]. unfold stat_of. now rewrite E.
  - assumption.
Qed.

(** It warns about each file that it drops. *)
Lemma stat_files_warns (files : list path) (f : path) (err : os_error) :
  In f files -> stat fs StatForSort f = inr err ->
  In (WarningStat f err) (snd (stat_files fs files)).
Proof.
  induction files as [|g rest IH]; simpl; [tauto|].
  destruct (stat_files fs rest) as [ok w]. simpl in IH.
  intros [<-|I] E.
  - rewrite E. now left.
  - destruct (stat fs StatForSort g); simpl; [|right]; now apply IH.
Qed.

(** Sorting [files_with_stat] by creation time and dropping the stat is
    sorting the files by the creation time read for them. *)
Lemma sorted_files (files : list path) :
  map fst (PySort.sort ctime_le (map (fun f => (f, stat_of fs f)) files))
  = PySort.sort (PySort.key_le (ctime_of fs)) files.
Proof.
  rewrite sort_map, map_map. simpl. apply map_id.
Qed.

Lemma filter_groups_keys (gs : groups) (k : str) :
  In k (map fst (fst (filter_groups fs gs))) -> In k (map fst gs).
Proof.
  induction gs as [|[k0 files] rest IH]; simpl; [tauto|].
  destruct (filter_groups fs rest) as [kept later]. simpl in IH.
  destruct (1 <? length files); simpl; [|tauto].
  destruct (stat_files fs files) as [ok w].
  destruct (1 <? length ok); simpl; tauto.
Qed.

Lemma filter_groups_nodup (gs : groups) :
  NoDup (map fst gs) -> NoDup (map fst (fst (filter_groups fs gs))).
Proof.
  induction gs as [|[k0 files] rest IH]; simpl; [constructor|].
  intros N. inversion N as [|? ? NI N']; subst. specialize (IH N').
  pose proof (filter_groups_keys rest k0) as K.
  destruct (filter_groups fs rest) as [kept later]. simpl in IH, K.
  destruct (1 <? length files); simpl; [|assumption].
  destruct (stat_files fs files) as [ok w].
  destruct (1 <? length ok); simpl; [|assumption].
  constructor; tauto.
Qed.

Lemma filter_groups_lookup (gs : groups) (k : str) :
  NoDup (map fst gs) ->
  lookup k (fst (filter_groups fs gs))
  = match lookup k gs with
    | Some files => kept_group fs files
    | None => None
    end.
Proof.
  induction gs as [|[k0 files] rest IH]; simpl; [reflexivity|].
  intros N. inversion N as [|? ? NI N']; subst. specialize (IH N').
  pose proof (filter_groups_keys rest k0) as K.
  pose proof (stat_files_kept files) as SK.
  destruct (filter_groups fs rest) as [kept later]. simpl in IH, K.
  destruct (stat_files fs files) as [ok w]. simpl in SK. subst ok.
  rewrite length_map.
  destruct (str_eq_dec k0 k) as [->|D].
  - assert (Gone : lookup k kept = None).
    { destruct (lookup k kept) eqn:L; [|reflexivity].
      apply lookup_in, (in_map fst) in L. tauto. }
    unfold kept_group.
    destruct (1 <? length files); simpl; [|assumption].
    destruct (1 <? length (filter (readable fs) files)); simpl; [|assumption].
    destruct (str_eq_dec k k); [|congruence].
    now rewrite sorted_files.
  - destruct (1 <? length files); simpl; [|assumption].
    destruct (1 <? length (filter (readable fs) files)); simpl; [|assumption].
    destruct (str_eq_dec k0 k); [congruence | assumption].
Qed.

Lemma filter_groups_warns (gs : groups) (k : str) (files : list path)
  (ev : event) :
  In (k, files) gs -> 1 < length files ->
  In ev (snd (stat_files fs files)) ->
  In ev (snd (filter_groups fs gs)).
Proof.
  induction gs as [|[k0 f0] rest IH]; simpl; [tauto|].
  destruct (filter_groups fs rest) as [kept later]. simpl in IH.
  intros [E|I] L W.
  - injection E as -> ->.
    apply Nat.ltb_lt in L. rewrite L.
    destruct (stat_files fs files) as [ok w]. simpl in W.
    destruct (1 <? length ok); simpl; apply in_or_app; now left.
  - specialize (IH I L W).
    destruct (1 <? length f0); [|assumption].
    destruct (stat_files fs f0) as [ok w].
    destruct (1 <? length ok); simpl; apply in_or_app; now right.
Qed.

(** The paths that the marking loops mark. *)
Lemma mark_duplicates_paths (l : list path) :
  map fst (fst (mark_duplicates fs l))
  = filter (stat_succeeds fs StatForCandidate) l.
Proof.
  induction l as [|f rest IH]; simpl; [reflexivity|].
  destruct (mark_duplicates fs rest) as [m evs]. simpl in IH.
  unfold stat_succeeds at 1.
  destruct (stat fs StatForCandidate f); simpl; now rewrite IH.
Qed.

(** A candidate stays marked when the [stat()] of its report line fails. *)
Example marked_though_skipped (f : path) (st : stat_result) :
  stat fs StatForCandidate f = inl st ->
  stat fs StatForReport f = inr FileNotFoundError ->
  mark_duplicates fs [f]
  = ([(f, st_size st)], [SkippingCandidate f FileNotFoundError]).
Proof. intros A B. simpl. now rewrite A, B. Qed.

Lemma mark_groups_paths (gs : groups) :
  map fst (fst (mark_groups fs gs))
  = flat_map (fun g => filter (stat_succeeds fs StatForCandidate)
                         (tl (snd g))) gs.
Proof.
  induction gs as [|[k files] rest IH]; simpl; [reflexivity|].
  destruct (mark_groups fs rest) as [later evs]. simpl in IH.
  destruct files as [|keep dups]; simpl; [assumption|].
  pose proof (mark_duplicates_paths dups) as D.
  destruct (mark_duplicates fs dups) as [m devs]. simpl in *.
  now rewrite map_app, D, IH.
Qed.

(** None of the loops before the deletion calls [unlink]. *)
Lemma stat_files_quiet (files : list path) (ev : event) :
  In ev (snd (stat_files fs files)) -> unlink_event ev = false.
Proof.
  induction files as [|f rest IH]; simpl; [tauto|].
  destruct (stat_files fs rest) as [ok w]. simpl in IH.
  destruct (stat fs StatForSort f); simpl; [assumption|].
  intros [<-|I]; [reflexivity | now apply IH].
Qed.

Lemma filter_groups_quiet (gs : groups) (ev : event) :
  In ev (snd (filter_groups fs gs)) -> unlink_event ev = false.
Proof.
  induction gs as [|[k files] rest IH]; simpl; [tauto|].
  destruct (filter_groups fs rest) as [kept later]. simpl in IH.
  destruct (1 <? length files); [|assumption].
  pose proof (@stat_files_quiet files ev) as Q.
  destruct (stat_files fs files) as [ok w]. simpl in Q.
  destruct (1 <? length ok); simpl; intros I;
    apply in_app_or in I as [I|I]; auto.
Qed.

Lemma mark_duplicates_quiet (l : list path) (ev : event) :
  In ev (snd (mark_duplicates fs l)) -> unlink_event ev = false.
Proof.
  induction l as [|f rest IH]; simpl; [tauto|].
  destruct (mark_duplicates fs rest) as [m evs]. simpl in IH.
  destruct (stat fs StatForCandidate f); simpl;
    (intros [<-|I]; [|now apply IH]); [|reflexivity].
  now destruct (stat fs StatForReport f).
Qed.

Lemma mark_groups_quiet (gs : groups) (ev : event) :
  In ev (snd (mark_groups fs gs)) -> unlink_event ev = false.
Proof.
  induction gs as [|[k files] rest IH]; simpl; [tauto|].
  destruct (mark_groups fs rest) as [later evs]. simpl in IH.
  destruct files as [|keep dups]; [assumption|].
  pose proof (@mark_duplicates_quiet dups ev) as Q.
  destruct (mark_duplicates fs dups) as [m devs]. simpl in *.
  intros [<-|I]; [reflexivity|].
  apply in_app_or in I as [I|I]; auto.
Qed.

End Run.

Lemma gather_quiet (fs : filesystem) (scan_error : option os_error)
  (directory : path) (recursive : bool) (ev : event) :
  In ev (snd (gather fs scan_error directory recursive)) ->
  unlink_event ev = false.
Proof.
  unfold gather. destruct recursive, scan_error; simpl; try tauto;
    (intros [<-|[]]; reflexivity).
Qed.

(** The deletion loop only adds to the log. *)
Lemma delete_files_log (l : list (path * Z)) (st : deletion) (ev : event) :
  In ev (d_log st) -> In ev (d_log (delete_files l st)).
Proof.
  revert st. induction l as [|[f size] rest IH]; intros st I; [assumption|].
  simpl. apply IH. unfold delete_one.
  destruct (exists_ (d_fs st) f); [destruct (unlink (d_fs st) f)|];
    simpl; apply in_or_app; now left.
Qed.

Lemma is_nil_true (A : Type) (l : list A) : is_nil l = true -> l = [].
Proof. destruct l; [reflexivity | discriminate]. Qed.

(** A run that gets past its checks: what its groups, its marked files and
    its log are. *)
Lemma run_plan (fs : filesystem) (scan_error : option os_error)
  (stdin : option str) (directory : path) (dry_run : bool) (p : Re.pattern)
  (auto_confirm dc recursive : bool) (all_files : list path)
  (log0 : list event) :
  Re.valid_pattern p ->
  exists_ fs directory = true -> is_dir fs directory = true ->
  gather fs scan_error directory recursive = (Some all_files, log0) ->
  exists r file_groups,
    find_and_remove_duplicates fs scan_error stdin directory dry_run (Some p)
      auto_confirm dc recursive = Some r
    /\ group_files p dc all_files [] = Some file_groups
    /\ r_groups r = fst (filter_groups fs file_groups)
    /\ Permutation (fst (mark_groups fs (r_groups r))) (r_files_to_remove r)
    /\ (forall ev, In ev (snd (filter_groups fs file_groups)) ->
                   In ev (r_log r)).
Proof.
  intros V E D G.
  destruct (group_files_returns dc all_files [] V) as [file_groups GF].
  unfold find_and_remove_duplicates. rewrite E, D, G, GF. simpl.
  destruct (filter_groups fs file_groups) as [gwd log1] eqn:FG. simpl.
  destruct (is_nil gwd) eqn:N1.
  { apply is_nil_true in N1. subst gwd.
    eexists. exists file_groups. rewrite FG.
    repeat split; simpl; try reflexivity.
    intros ev I. apply in_or_app. right. apply in_or_app. now left. }
  destruct (mark_groups fs gwd) as [ftr log2] eqn:MG.
  destruct (is_nil ftr) eqn:N2.
  { apply is_nil_true in N2. subst ftr.
    eexists. exists file_groups. rewrite FG.
    repeat split; simpl; try reflexivity.
    - rewrite MG. reflexivity.
    - intros ev I. apply in_or_app. right. apply in_or_app. now left. }
  assert (InLog : forall ev tail, In ev log1 ->
                                  In ev ((log0 ++ log1 ++ log2) ++ tail)).
  { intros ev tail I. apply in_or_app. left. apply in_or_app. right.
    apply in_or_app. now left. }
  destruct dry_run.
  { eexists. exists file_groups. rewrite FG.
    repeat split; simpl; try reflexivity.
    - rewrite MG. apply sort_perm.
    - intros ev I. now apply InLog. }
  destruct (if auto_confirm then _ else _) as [[]|ev0].
  - eexists. exists file_groups. rewrite FG.
    repeat split; simpl; try reflexivity.
    + rewrite MG. apply sort_perm.
    + intros ev I. apply in_or_app. left. apply delete_files_log. simpl.
      rewrite <- (app_nil_r (log0 ++ log1 ++ log2)). now apply InLog.
  - eexists. exists file_groups. rewrite FG.
    repeat split; simpl; try reflexivity.
    + rewrite MG. apply sort_perm.
    + intros ev I. now apply InLog.
Qed.

Lemma kept_group_nil (fs : filesystem) : kept_group fs [] = None.
Proof. reflexivity. Qed.

(** What a kept group consists of. *)
Lemma kept_group_some (fs : filesystem) (files sorted : list path) :
  kept_group fs files = Some sorted ->
  sorted = PySort.sort (PySort.key_le (ctime_of fs))
             (filter (readable fs) files)
  /\ 1 < length files /\ 1 < length (filter (readable fs) files).
Proof.
  unfold kept_group.
  destruct (1 <? length files) eqn:A; [|discriminate].
  destruct (1 <? length (filter (readable fs) files)) eqn:B; [|discriminate].
  simpl. intros H. injection H as <-.
  apply Nat.ltb_lt in A, B. now repeat split.
Qed.

Lemma in_kept_group (fs : filesystem) (files sorted : list path) (f : path) :
  kept_group fs files = Some sorted -> In f sorted ->
  In f files /\ readable fs f = true.
Proof.
  intros K I. apply kept_group_some in K as (-> & _).
  apply (Permutation_in _ (Permutation_sym (sort_perm _ _))) in I.
  now apply filter_In in I.
Qed.

(** The groups and the marked files of a run that gets past its checks. *)
Lemma run_groups (fs : filesystem) (scan_error : option os_error)
  (stdin : option str) (directory : path) (dry_run : bool) (p : Re.pattern)
  (auto_confirm dc recursive : bool) (all_files : list path)
  (log0 : list event) :
  Re.valid_pattern p ->
  exists_ fs directory = true -> is_dir fs directory = true ->
  gather fs scan_error directory recursive = (Some all_files, log0) ->
  exists r,
    find_and_remove_duplicates fs scan_error stdin directory dry_run (Some p)
      auto_confirm dc recursive = Some r
    /\ NoDup (map fst (r_groups r))
    /\ (forall k, lookup k (r_groups r)
                  = kept_group fs (members p dc k all_files))
    /\ Permutation
         (flat_map (fun g => filter (stat_succeeds fs StatForCandidate)
                               (tl (snd g))) (r_groups r))
         (marked r)
    /\ (forall k f err,
          1 < length (members p dc k all_files) ->
          In f (members p dc k all_files) ->
          stat fs StatForSort f = inr err ->
          In (WarningStat f err) (r_log r)).
Proof.
  intros V E D G.
  destruct (@run_plan fs scan_error stdin directory dry_run p auto_confirm dc
              recursive all_files log0 V E D G)
    as (r & fg & Run & GF & RG & PM & LG).
  assert (ND : NoDup (map fst fg)).
  { eapply group_files_keys; [exact GF | constructor]. }
  assert (LK : forall k, lookup k fg
                         = match members p dc k all_files with
                           | [] => None
                           | m => Some m
                           end).
  { intros k. rewrite (@group_files_lookup p dc all_files [] fg GF k). simpl.
    destruct (members p dc k all_files); reflexivity. }
  exists r. split; [assumption|]. rewrite RG. repeat split.
  - now apply filter_groups_nodup.
  - intros k. rewrite filter_groups_lookup by assumption. rewrite LK.
    destruct (members p dc k all_files); reflexivity.
  - rewrite <- mark_groups_paths, <- RG. unfold marked.
    now apply Permutation_map.
  - intros k f err L I S. apply LG.
    apply filter_groups_warns with (k := k) (files := members p dc k all_files).
    + apply lookup_in. rewrite LK.
      destruct (members p dc k all_files); [destruct I | reflexivity].
    + assumption.
    + now apply stat_files_warns.
Qed.

Lemma in_tl (A : Type) (x : A) (l : list A) : In x (tl l) -> In x l.
Proof. destruct l; simpl; tauto. Qed.

(** In a dict whose keys are distinct, a file that only the group of [k]
    holds is counted in that group alone. *)
Lemma count_in_own_group (h : str * list path -> list path) (gs : groups)
  (k : str) (sorted : list path) (f : path) :
  (forall g, In f (h g) -> In f (snd g)) ->
  NoDup (map fst gs) -> In (k, sorted) gs ->
  (forall k' files, In (k', files) gs -> k' <> k -> ~ In f files) ->
  count_occ path_eq_dec (flat_map h gs) f
  = count_occ path_eq_dec (h (k, sorted)) f.
Proof.
  intros Sub. induction gs as [|[k0 f0] rest IH]; simpl; [tauto|].
  intros N I Other. inversion N as [|? ? NI N']; subst.
  rewrite count_occ_app.
  assert (Zero : forall gs', (forall g, In g gs' -> fst g <> k) ->
                             incl gs' rest ->
                             count_occ path_eq_dec (flat_map h gs') f = 0).
  { intros gs' K Inc. apply count_occ_not_In. intros F.
    apply in_flat_map in F as ([k' files] & G & F).
    apply Sub in F. apply (Other k' files); [right; now apply Inc | |assumption].
    now apply (K _ G). }
  destruct I as [I|I].
  - injection I as -> ->. rewrite Zero; [lia| |apply incl_refl].
    intros [k' files] G X. simpl in X. subst k'.
    apply NI. now apply (in_map fst) in G.
  - assert (k0 <> k).
    { intros ->. apply NI. now apply (in_map fst) in I. }
    rewrite IH; try assumption.
    + assert (Z0 : count_occ path_eq_dec (h (k0, f0)) f = 0).
      { apply count_occ_not_In. intros F. apply Sub in F.
        apply (Other k0 f0); auto. }
      now rewrite Z0.
    + intros k' files G. apply Other. now right.
Qed.

Lemma filter_all (A : Type) (f : A -> bool) (l : list A) :
  (forall x, In x l -> f x = true) -> filter f l = l.
Proof.
  intros H. apply forallb_filter_id, forallb_forall. assumption.
Qed.

(** A file belongs to the group of its own key only. *)
Lemma other_groups (fs : filesystem) (p : Re.pattern) (dc : bool)
  (all_files : list path) (gs : groups) (k : str) (f : path) :
  NoDup (map fst gs) ->
  (forall k', lookup k' gs = kept_group fs (members p dc k' all_files)) ->
  has_key p dc k f = true ->
  forall k' files, In (k', files) gs -> k' <> k -> ~ In f files.
Proof.
  intros ND LK H k' files G D I.
  apply in_lookup in G; [|assumption]. rewrite LK in G.
  destruct (@in_kept_group fs _ _ f G I) as [M _].
  apply filter_In in M as [_ M].
  apply has_key_iff in H, M. congruence.
Qed.

(** C1.  Take a run that gets past its checks, over distinct discovered
    files, and a key whose group has at least two files, all with readable
    metadata.  The group is stored sorted by creation time, ascending, files
    of equal time in discovery order; its first file has the least creation
    time and is not marked for deletion; every other file of the group is
    marked exactly once. *)
Theorem C1_oldest_survives (fs : filesystem) (scan_error : option os_error)
  (stdin : option str) (directory : path) (dry_run : bool) (p : Re.pattern)
  (auto_confirm dc recursive : bool) (all_files : list path)
  (log0 : list event) (k : str) :
  Re.valid_pattern p ->
  exists_ fs directory = true -> is_dir fs directory = true ->
  gather fs scan_error directory recursive = (Some all_files, log0) ->
  NoDup all_files ->
  2 <= length (members p dc k all_files) ->
  (forall f call, In f (members p dc k all_files) ->
                  exists st, stat fs call f = inl st) ->
  exists r sorted keep rest,
    find_and_remove_duplicates fs scan_error stdin directory dry_run (Some p)
      auto_confirm dc recursive = Some r
    /\ lookup k (r_groups r) = Some sorted
    /\ sorted = keep :: rest
    /\ Permutation (members p dc k all_files) sorted
    /\ Sorted (PySort.key_rel (ctime_of fs)) sorted
    /\ (forall t, filter (fun f => ctime_of fs f =? t)%Z sorted
                  = filter (fun f => ctime_of fs f =? t)%Z
                      (members p dc k all_files))
    /\ (forall f, In f (members p dc k all_files) ->
                  (ctime_of fs keep <= ctime_of fs f)%Z)
    /\ count_occ path_eq_dec (marked r) keep = 0
    /\ (forall f, In f (members p dc k all_files) -> f <> keep ->
                  count_occ path_eq_dec (marked r) f = 1).
Proof.
  intros V E D G ND L AllStat.
  destruct (@run_groups fs scan_error stdin directory dry_run p auto_confirm
              dc recursive all_files log0 V E D G)
    as (r & Run & NK & LK & PM & _).
  set (m := members p dc k all_files) in *.
  assert (AllR : filter (readable fs) m = m).
  { apply filter_all. intros f I. unfold readable, stat_succeeds.
    now destruct (AllStat f StatForSort I) as [st ->]. }
  assert (K : kept_group fs m
              = Some (PySort.sort (PySort.key_le (ctime_of fs)) m)).
  { unfold kept_group. rewrite AllR.
    assert (B : (1 <? length m) = true) by (apply Nat.ltb_lt; lia).
    now rewrite B. }
  pose proof (sort_perm (PySort.key_le (ctime_of fs)) m) as P.
  pose proof (sort_sorted (ctime_of fs) m) as S.
  pose proof (fun t => sort_stable (ctime_of fs) t m) as St.
  pose proof (@sort_head_least _ (ctime_of fs) m) as Least.
  destruct (PySort.sort (PySort.key_le (ctime_of fs)) m)
    as [|keep rest] eqn:Srt.
  { apply Permutation_length in P. simpl in P. lia. }
  assert (NDm : NoDup m) by (now apply NoDup_filter).
  assert (NDs : NoDup (keep :: rest)) by (now apply (Permutation_NoDup P)).
  assert (Key : forall f, In f m -> has_key p dc k f = true).
  { intros f I. now apply filter_In in I. }
  assert (Cand : filter (stat_succeeds fs StatForCandidate) rest = rest).
  { apply filter_all. intros f I. unfold stat_succeeds.
    assert (M : In f m)
      by (apply (Permutation_in _ (Permutation_sym P)); now right).
    now destruct (AllStat f StatForCandidate M) as [st ->]. }
  assert (Count : forall f, In f m ->
            count_occ path_eq_dec (marked r) f = count_occ path_eq_dec rest f).
  { intros f I.
    rewrite <- (proj1 (Permutation_count_occ path_eq_dec _ _) PM f).
    rewrite count_in_own_group with (k := k) (sorted := keep :: rest).
    - simpl. now rewrite Cand.
    - intros g F. apply filter_In in F as [F _]. now apply in_tl.
    - assumption.
    - apply lookup_in. rewrite LK. exact K.
    - eapply other_groups; eauto. }
  exists r, (keep :: rest), keep, rest.
  repeat split; try assumption.
  - rewrite LK. exact K.
  - intros f I. now apply (Least keep rest).
  - rewrite Count.
    + apply count_occ_not_In. now inversion NDs.
    + apply (Permutation_in _ (Permutation_sym P)). now left.
  - intros f I Neq. rewrite Count by assumption.
    apply NoDup_count_occ'; [now inversion NDs|].
    apply (Permutation_in _ P) in I. destruct I; [congruence | assumption].
Qed.

(** C4.  Take a run that gets past its checks and a key whose group has at
    least two files.  A file of the group whose metadata cannot be read is
    reported with a warning, is left out of the stored group and is not
    marked for deletion.  If at most one file of the group is readable, no
    group is stored for the key and no file of the group is marked; if two
    or more are, the group stored is made of exactly the readable ones. *)
Theorem C4_unreadable_dropped (fs : filesystem)
  (scan_error : option os_error) (stdin : option str) (directory : path)
  (dry_run : bool) (p : Re.pattern) (auto_confirm dc recursive : bool)
  (all_files : list path) (log0 : list event) (k : str) :
  Re.valid_pattern p ->
  exists_ fs directory = true -> is_dir fs directory = true ->
  gather fs scan_error directory recursive = (Some all_files, log0) ->
  2 <= length (members p dc k all_files) ->
  exists r,
    find_and_remove_duplicates fs scan_error stdin directory dry_run (Some p)
      auto_confirm dc recursive = Some r
    /\ (forall f err,
          In f (members p dc k all_files) ->
          stat fs StatForSort f = inr err ->
          In (WarningStat f err) (r_log r)
          /\ ~ In f (members_of k (r_groups r))
          /\ ~ In f (marked r))
    /\ (length (filter (readable fs) (members p dc k all_files)) <= 1 ->
        lookup k (r_groups r) = None
        /\ forall f, In f (members p dc k all_files) -> ~ In f (marked r))
    /\ (2 <= length (filter (readable fs) (members p dc k all_files)) ->
        exists sorted,
          lookup k (r_groups r) = Some sorted
          /\ Permutation (filter (readable fs) (members p dc k all_files))
               sorted).
Proof.
  intros V E D G L.
  destruct (@run_groups fs scan_error stdin directory dry_run p auto_confirm
              dc recursive all_files log0 V E D G)
    as (r & Run & NK & LK & PM & W).
  set (m := members p dc k all_files) in *.
  assert (Own : forall f, In f m -> In f (marked r) ->
                          exists sorted, lookup k (r_groups r) = Some sorted
                                         /\ In f sorted).
  { intros f I F. apply (Permutation_in _ (Permutation_sym PM)) in F.
    apply in_flat_map in F as ([k' files] & Gk & F).
    apply filter_In in F as [F _]. apply in_tl in F. simpl in F.
    destruct (str_eq_dec k' k) as [->|N].
    - exists files. split; [now apply in_lookup | assumption].
    - exfalso. apply filter_In in I as [_ I].
      eapply other_groups; eauto. }
  exists r. split; [assumption|]. repeat split.
  - apply (W k); [fold m; lia | assumption | assumption].
  - unfold members_of. rewrite LK. fold m.
    destruct (kept_group fs m) as [sorted|] eqn:K; [|tauto].
    intros I. destruct (@in_kept_group fs _ _ f K I) as [_ R].
    unfold readable, stat_succeeds in R. now rewrite H0 in R.
  - intros F. destruct (Own f H F) as (sorted & Lk & I).
    rewrite LK in Lk. fold m in Lk.
    destruct (@in_kept_group fs _ _ f Lk I) as [_ R].
    unfold readable, stat_succeeds in R. now rewrite H0 in R.
  - rewrite LK. fold m. unfold kept_group.
    assert (B : (1 <? length (filter (readable fs) m)) = false)
      by (apply Nat.ltb_ge; assumption).
    rewrite B. now rewrite andb_false_r.
  - intros f I F. destruct (Own f I F) as (sorted & Lk & _).
    rewrite LK in Lk. fold m in Lk.
    apply kept_group_some in Lk as (_ & _ & Two). lia.
  - intros Two. eexists. split.
    + rewrite LK. fold m. unfold kept_group.
      assert (A : (1 <? length m) = true) by (apply Nat.ltb_lt; lia).
      assert (B : (1 <? length (filter (readable fs) m)) = true)
        by (apply Nat.ltb_lt; lia).
      rewrite A, B. reflexivity.
    + apply sort_perm.
Qed.

Example copies_run :
  exists r,
    find_and_remove_duplicates Samples.copies None None Samples.directory
      true (Some Re.default_pattern) false false false = Some r
    /\ r_groups r
       = [(Samples.key_a, [[lit "d"; lit "a (1).txt"];
                           [lit "d"; lit "a (2).txt"];
                           [lit "d"; lit "a.txt"]])]
    /\ r_files_to_remove r
       = [([lit "d"; lit "a (2).txt"], 9%Z); ([lit "d"; lit "a.txt"], 7%Z)].
Proof. eexists. split; [vm_compute; reflexivity|]. split; reflexivity. Qed.

Lemma copies_nodup : NoDup Samples.copies_files.
Proof.
  unfold Samples.copies_files.
  repeat constructor; simpl; intuition discriminate.
Defined.

Lemma C1_witness :
  exists r keep,
    find_and_remove_duplicates Samples.copies None None Samples.directory
      true (Some Re.default_pattern) false false false = Some r
    /\ count_occ path_eq_dec (marked r) keep = 0
    /\ (forall f,
          In f (members Re.default_pattern false Samples.key_a
                  Samples.copies_files) ->
          f <> keep -> count_occ path_eq_dec (marked r) f = 1).
Proof.
  destruct (@C1_oldest_survives Samples.copies None None Samples.directory
              true Re.default_pattern false false false Samples.copies_files
              [] Samples.key_a)
    as (r & sorted & keep & rest & Run & _ & _ & _ & _ & _ & _ & Keep & Others).
  - exact ReFacts.default_pattern_valid.
  - reflexivity.
  - reflexivity.
  - reflexivity.
  - exact copies_nodup.
  - vm_compute. lia.
  - intros f call I. vm_compute in I.
    destruct I as [<-|[<-|[<-|[]]]]; destruct call; eexists; reflexivity.
  - exists r, keep. now repeat split.
Defined.

Example locked_run :
  exists r,
    find_and_remove_duplicates Samples.locked None None Samples.directory
      false (Some Re.default_pattern) true false false = Some r
    /\ r_groups r = [] /\ r_files_to_remove r = [] /\ r_fs r = Samples.locked
    /\ r_log r = [WarningStat [lit "d"; lit "a (1).txt"] PermissionError;
                  NoDuplicateGroups].
Proof. eexists. split; [vm_compute; reflexivity|]. repeat split. Qed.

Lemma C4_witness :
  exists r,
    find_and_remove_duplicates Samples.locked None None Samples.directory
      false (Some Re.default_pattern) true false false = Some r
    /\ lookup Samples.key_a (r_groups r) = None
    /\ (forall f,
          In f (members Re.default_pattern false Samples.key_a
                  Samples.locked_files) -> ~ In f (marked r)).
Proof.
  destruct (@C4_unreadable_dropped Samples.locked None None Samples.directory
              false Re.default_pattern true false false Samples.locked_files
              [] Samples.key_a)
    as (r & Run & _ & Dropped & _).
  - exact ReFacts.default_pattern_valid.
  - reflexivity.
  - reflexivity.
  - reflexivity.
  - vm_compute. lia.
  - exists r. split; [assumption|]. apply Dropped. vm_compute. lia.
Defined.

(** *** Runs that delete nothing *)

Ltac quiet :=
  repeat match goal with
    | I : In _ (_ ++ _) |- _ => apply in_app_or in I as [I|I]
    | I : In _ (dry_run_notice ?d) |- _ =>
        destruct d; cbn [dry_run_notice] in I
    | I : In _ (_ :: _) |- _ => destruct I as [<-|I]; [reflexivity|]
    | I : In _ [] |- _ => destruct I
    end; solve [eauto].

Ltac stops :=
  let Run := fresh "Run" in
  intros Run; intros; injection Run as <-;
  cbn [r_fs r_deleted_count r_deleted_size r_log returns];
  (split; [reflexivity|]); (split; [reflexivity|]); (split; [reflexivity|]);
  let ev := fresh "ev" in let Hin := fresh "Hin" in
  intros ev Hin; quiet.

(** In a dry run, and in a live run without auto-confirm in which the
    answer is not [yes], [unlink] is never called and the filesystem is
    what it was. *)
Lemma no_deletion_unless_confirmed (fs : filesystem)
  (scan_error : option os_error) (stdin : option str) (directory : path)
  (dry_run : bool) (pattern : option Re.pattern)
  (auto_confirm dc recursive : bool) (r : result) :
  find_and_remove_duplicates fs scan_error stdin directory dry_run pattern
    auto_confirm dc recursive = Some r ->
  dry_run = true
  \/ (auto_confirm = false /\ read_confirmation stdin <> Some (lit "yes")) ->
  r_fs r = fs /\ r_deleted_count r = 0 /\ r_deleted_size r = 0%Z
  /\ (forall ev, In ev (r_log r) -> unlink_event ev = false).
Proof.
  unfold find_and_remove_duplicates.
  destruct (negb (exists_ fs directory)); [stops|].
  destruct (negb (is_dir fs directory)); [stops|].
  destruct pattern as [p|]; [|stops].
  pose proof (@gather_quiet fs scan_error directory recursive) as Q0.
  destruct (gather fs scan_error directory recursive) as [[all_files|] log0];
    simpl in Q0; [|stops].
  destruct (group_files p dc all_files []) as [fg|]; [|discriminate].
  pose proof (@filter_groups_quiet fs fg) as Q1.
  destruct (filter_groups fs fg) as [gwd log1]. simpl in Q1.
  destruct (is_nil gwd); [stops|].
  pose proof (@mark_groups_quiet fs gwd) as Q2.
  destruct (mark_groups fs gwd) as [ftr log2]. simpl in Q2.
  destruct (is_nil ftr); [stops|].
  destruct dry_run; [stops|].
  intros Run [Dry|[-> No]]; [discriminate|]. revert Run.
  destruct (read_confirmation stdin) as [confirmation|].
  - destruct (str_eq_dec confirmation (lit "yes")) as [->|N]; [congruence|].
    stops.
  - stops.
Qed.

(** With the answer [yes] the files are deleted: a live run over the three
    copies leaves the oldest one. *)
Example copies_confirmed :
  exists r,
    find_and_remove_duplicates Samples.copies None (Some (lit " YES "))
      Samples.directory false (Some Re.default_pattern) false false false
    = Some r
    /\ map e_path (r_fs r)
       = [[lit "d"]; [lit "d"; lit "a (1).txt"]; [lit "d"; lit "b.txt"]]
    /\ r_deleted_count r = 2 /\ r_deleted_size r = 16%Z.
Proof. eexists. split; [vm_compute; reflexivity|]. repeat split. Qed.

End DuplicatesRemoveFacts.

(** ** The empty-directory pruners *)

Module PruneFacts.
Import PurePath DirTree PruneSpec.

(** Induction on directory trees. *)
Lemma dir_induction (P : dir -> Prop) :
  (forall n a others subdirs,
     Forall P subdirs -> P (Dir n a others subdirs)) ->
  forall d, P d.
Proof.
  intros H. fix IH 1. intros [n a o subs]. apply H.
  induction subs as [|c t IHt]; constructor; [apply IH | exact IHt].
Qed.

(** [os_walk] in terms of [walk_dirs]. *)
Lemma os_walk_eq (body : path -> dir -> tally -> option dir * tally)
  (w : path) (n : str) (a : access) (o : list str) (subs : list dir)
  (st : tally) :
  os_walk body w (Dir n a o subs) st
  = if can_list a then
      let (remaining, st1) := walk_dirs body (w ++ [n]) subs st in
      body (w ++ [n]) (Dir n a o remaining) st1
    else (Some (Dir n a o subs), st).
Proof.
  simpl os_walk. destruct (can_list a); [|reflexivity].
  match goal with
  | |- (let (_, _) := ?f subs st in _) = _ =>
      assert (E : forall ds st', f ds st' = walk_dirs body (w ++ [n]) ds st')
  end.
  { induction ds as [|c t IHt]; intros st'; [reflexivity|].
    change (walk_dirs body (w ++ [n]) (c :: t) st')
      with (let (c', st1) := os_walk body (w ++ [n]) c st' in
            let (rest', st2) := walk_dirs body (w ++ [n]) t st1 in
            (keep_dir c' rest', st2)).
    cbv beta iota. fold (os_walk body).
    destruct (os_walk body (w ++ [n]) c st') as [c' st1].
    rewrite IHt. reflexivity. }
  now rewrite E.
Qed.

Lemma residue_none (rm : access -> bool) (d : dir) :
  residue rm d = None <-> collapses rm d = true.
Proof.
  destruct d as [n a o subs]. simpl.
  destruct o as [|x o].
  - destruct (can_list a); simpl; [|split; discriminate].
    destruct (forallb (collapses rm) subs && rm a);
      split; congruence.
  - destruct (can_list a); split; discriminate.
Qed.

Lemma residues_nil (rm : access -> bool) (subs : list dir) :
  residues rm subs = [] <-> forallb (collapses rm) subs = true.
Proof.
  induction subs as [|c t IH]; simpl; [tauto|].
  pose proof (residue_none rm c) as R.
  destruct (residue rm c) as [c'|]; simpl.
  - destruct (collapses rm c); simpl; split; try discriminate.
    intros _. destruct R as [_ R]. now specialize (R eq_refl).
  - destruct R as [R _]. rewrite (R eq_refl). simpl. exact IH.
Qed.

Lemma residue_unfold (rm : access -> bool) (n : str) (a : access)
  (o : list str) (subs : list dir) :
  residue rm (Dir n a o subs)
  = if can_list a then
      if collapses rm (Dir n a o subs) then None
      else Some (Dir n a o (residues rm subs))
    else Some (Dir n a o subs).
Proof. reflexivity. Qed.

Lemma removed_dirs_unfold (rm : access -> bool) (w : path) (n : str)
  (a : access) (o : list str) (subs : list dir) :
  removed_dirs rm w (Dir n a o subs)
  = if can_list a then
      flat_map (removed_dirs rm (w ++ [n])) subs
      ++ (if collapses rm (Dir n a o subs) then [w ++ [n]] else [])
    else [].
Proof. reflexivity. Qed.

Lemma checked_of_app (a b : list event) :
  checked_of (a ++ b) = checked_of a ++ checked_of b.
Proof. apply flat_map_app. Qed.

Lemma removed_of_app (a b : list event) :
  removed_of (a ++ b) = removed_of a ++ removed_of b.
Proof. apply flat_map_app. Qed.

Ltac tidy :=
  rewrite ?length_app, ?app_nil_r, <- ?app_assoc; simpl;
  repeat split; try reflexivity; lia.

Section Live.

Variable rm : access -> bool.
Variable ok : path -> event.
Hypothesis ok_removes : forall p, ok p = Removed p \/ ok p = Trashed p.

Lemma checked_ok (p : path) : checked_of [ok p] = [].
Proof. destruct (ok_removes p) as [-> | ->]; reflexivity. Qed.

Lemma removed_ok (p : path) : removed_of [ok p] = [p].
Proof. destruct (ok_removes p) as [-> | ->]; reflexivity. Qed.

Lemma walk_dirs_live (subs : list dir) :
  Forall (walked rm ok) subs ->
  forall w st,
    fst (walk_dirs (live_body rm ok) w subs st) = residues rm subs
    /\ checked_of (log (snd (walk_dirs (live_body rm ok) w subs st)))
       = checked_of (log st) ++ flat_map (postorder w) subs
    /\ removed_of (log (snd (walk_dirs (live_body rm ok) w subs st)))
       = removed_of (log st) ++ flat_map (removed_dirs rm w) subs
    /\ deleted_count (snd (walk_dirs (live_body rm ok) w subs st))
       = deleted_count st + length (flat_map (removed_dirs rm w) subs).
Proof.
  induction 1 as [|c t Hc _ IH]; intros w st; simpl; [tidy|].
  destruct (Hc w st) as (F & C & R & D).
  destruct (os_walk (live_body rm ok) w c st) as [c' st1]. simpl in *.
  destruct (IH w st1) as (F' & C' & R' & D').
  destruct (walk_dirs (live_body rm ok) w t st1) as [t' st2]. simpl in *.
  rewrite F, F', C', R', D', C, R, D. tidy.
Qed.

Lemma os_walk_live (d : dir) : walked rm ok d.
Proof.
  induction d as [n a o subs IH] using dir_induction. intros w st.
  rewrite os_walk_eq, residue_unfold. simpl postorder. simpl removed_dirs.
  destruct (can_list a) eqn:L; [|simpl; tidy].
  destruct (walk_dirs_live IH (w ++ [n]) st) as (F & C & R & D).
  destruct (walk_dirs (live_body rm ok) (w ++ [n]) subs st) as [rest st1].
  simpl in F, C, R, D. subst rest.
  pose proof (residues_nil rm subs) as RN.
  unfold live_body, iterdir. simpl dir_access. simpl dir_others.
  simpl dir_subdirs. rewrite L.
  destruct o as [|x o].
  - simpl app at 1. destruct (residues rm subs) as [|c' rest] eqn:E.
    + destruct RN as [RN _]. specialize (RN eq_refl).
      simpl map. simpl collapses. rewrite L, RN. simpl andb.
      destruct (rm a); simpl.
      * rewrite checked_of_app, removed_of_app, C, R, D.
        change [Checked (w ++ [n]); ok (w ++ [n])]
          with ([Checked (w ++ [n])] ++ [ok (w ++ [n])]).
        rewrite checked_of_app, removed_of_app, checked_ok, removed_ok.
        simpl. tidy.
      * rewrite checked_of_app, removed_of_app, C, R, D. simpl. tidy.
    + assert (N : forallb (collapses rm) subs = false).
      { destruct (forallb (collapses rm) subs); [|reflexivity].
        destruct RN as [_ RN]. now specialize (RN eq_refl). }
      simpl map. simpl collapses. rewrite L, N. simpl.
      rewrite checked_of_app, removed_of_app, C, R, D. simpl. tidy.
  - simpl. rewrite checked_of_app, removed_of_app, C, R, D. simpl. tidy.
Qed.

(** A second walk finds nothing to remove. *)
Lemma residue_stable (d : dir) :
  forall d', residue rm d = Some d' ->
             residue rm d' = Some d' /\ forall w, removed_dirs rm w d' = [].
Proof.
  induction d as [n a o subs IH] using dir_induction. intros d'.
  rewrite residue_unfold. destruct (can_list a) eqn:L.
  2:{ intros H. injection H as <-. rewrite residue_unfold. simpl.
      rewrite L. now split. }
  destruct (collapses rm (Dir n a o subs)) eqn:Cl; [discriminate|].
  intros H. injection H as <-.
  assert (Sub : Forall (fun c' => residue rm c' = Some c'
                                  /\ forall w, removed_dirs rm w c' = [])
                  (residues rm subs)).
  { clear Cl. induction IH as [|c t Hc _ IHt]; simpl; [constructor|].
    destruct (residue rm c) as [c'|] eqn:E; simpl; [|assumption].
    constructor; [now apply Hc | assumption]. }
  assert (Same : residues rm (residues rm subs) = residues rm subs).
  { revert Sub. generalize (residues rm subs) as l.
    induction 1 as [|c' t [Hc _] _ IHt]; simpl; [reflexivity|].
    rewrite Hc. simpl. now f_equal. }
  assert (NoRm : forall w, flat_map (removed_dirs rm w) (residues rm subs)
                           = []).
  { intros w. revert Sub. generalize (residues rm subs) as l.
    induction 1 as [|c' t [_ Hc] _ IHt]; simpl; [reflexivity|].
    now rewrite Hc, IHt. }
  assert (Cl' : collapses rm (Dir n a o (residues rm subs)) = false).
  { simpl in *. destruct o as [|x o]; [|reflexivity]. rewrite L in *.
    simpl in *. destruct (residues rm subs) as [|c' t] eqn:E.
    - apply residues_nil in E. rewrite E in Cl. exact Cl.
    - inversion Sub as [|? ? [Hc _] _]; subst. simpl.
      destruct (collapses rm c') eqn:K; [|reflexivity].
      apply residue_none in K. congruence. }
  split.
  - rewrite residue_unfold, L, Cl'. fold (residues rm (residues rm subs)).
    now rewrite Same.
  - intros w. now rewrite removed_dirs_unfold, L, NoRm, Cl'.
Qed.

End Live.

(** Where the walk can list the root, the root comes last. *)
Lemma postorder_root_last (w : path) (root : dir) :
  can_list (dir_access root) = true ->
  last (postorder w root) [] = w ++ [dir_name root].
Proof.
  destruct root as [n a o subs]. simpl. intros ->. apply last_last.
Qed.

(** The live bodies of the two scripts. *)
Lemma clean_empty_dir_body :
  CleanEmptyDir.body false = live_body can_rmdir Removed.
Proof. reflexivity. Qed.

Lemma deepseek_body (force_delete : bool) (p : path) (d : dir) (st : tally) :
  CleanEmptyDirDeepseek.body force_delete p d st
  = live_body (removal force_delete) (removal_event force_delete) p d st.
Proof.
  unfold CleanEmptyDirDeepseek.body, live_body, CleanEmptyDirDeepseek.remove,
    removal, removal_event.
  destruct (iterdir d) as [[|x l]|]; try reflexivity.
  destruct force_delete;
    [destruct (can_rmdir (dir_access d)) | destruct (can_trash (dir_access d))];
    reflexivity.
Qed.

(** What is left of a tree cannot be removed as it stands. *)
Lemma residue_not_removable (rm : access -> bool) (d d' : dir) :
  residue rm d = Some d' -> iterdir d' = Some [] ->
  rm (dir_access d') = false.
Proof.
  destruct d as [n a o subs]. rewrite residue_unfold. unfold iterdir.
  destruct (can_list a) eqn:L.
  - destruct (collapses rm (Dir n a o subs)) eqn:C; [discriminate|].
    intros H. injection H as <-. simpl. rewrite L. intros E.
    injection E as E. apply app_eq_nil in E as [-> E].
    apply map_eq_nil in E. apply residues_nil in E.
    simpl in C. rewrite L, E in C. exact C.
  - intros H. injection H as <-. simpl. rewrite L. discriminate.
Qed.

(** The dry run of [clean_empty_dir.py] leaves every tree as it is. *)
Lemma dry_walk (d : dir) :
  forall w st,
    fst (os_walk (CleanEmptyDir.body true) w d st) = Some d
    /\ removed_of (log (snd (os_walk (CleanEmptyDir.body true) w d st)))
       = removed_of (log st).
Proof.
  induction d as [n a o subs IH] using dir_induction. intros w st.
  rewrite os_walk_eq. destruct (can_list a) eqn:L; [|now split].
  assert (W : forall st0,
            fst (walk_dirs (CleanEmptyDir.body true) (w ++ [n]) subs st0)
            = subs
            /\ removed_of
                 (log (snd (walk_dirs (CleanEmptyDir.body true) (w ++ [n])
                              subs st0)))
               = removed_of (log st0)).
  { induction IH as [|c t Hc _ IHt]; intros st0; simpl; [now split|].
    destruct (Hc (w ++ [n]) st0) as [F R].
    destruct (os_walk (CleanEmptyDir.body true) (w ++ [n]) c st0)
      as [c' st1]. simpl in F, R. subst c'.
    destruct (IHt st1) as [F' R'].
    destruct (walk_dirs (CleanEmptyDir.body true) (w ++ [n]) t st1)
      as [t' st2]. simpl in *. subst t'. split; [reflexivity | congruence]. }
  destruct (W st) as [F R].
  destruct (walk_dirs (CleanEmptyDir.body true) (w ++ [n]) subs st)
    as [rest st1]. simpl in F, R. subst rest.
  unfold CleanEmptyDir.body.
  destruct (iterdir (Dir n a o subs)) as [[|x l]|]; simpl;
    rewrite removed_of_app, R; simpl; rewrite ?app_nil_r; now split.
Qed.

(** C3.  Both pruners, in a live run on any tree: the loop body runs for
    the directories in post-order, so for every subdirectory, with all
    that lies below it, before its parent, and for the root last
    (the second script then checks what is left of the root once more);
    the directories removed are exactly the collapsing ones, in that
    order, where a directory collapses as soon as it holds nothing but
    collapsing subdirectories and can be removed; what is left holds no
    collapsing directory, so a second pass removes nothing. *)
Theorem C3_cascade_bottom_up (where_ : path) (root : dir) :
  (forall after st,
     CleanEmptyDir.delete_empty_dirs_recursive where_ root false = (after, st) ->
     checked_of (log st) = postorder where_ root
     /\ removed_of (log st) = removed_dirs can_rmdir where_ root
     /\ after = residue can_rmdir root
     /\ deleted_count st = length (removed_dirs can_rmdir where_ root))
  /\ (forall force_delete after st,
        CleanEmptyDirDeepseek.delete_empty_recursive where_ root force_delete
          = (after, st) ->
        checked_of (log st)
          = postorder where_ root
            ++ match after with
               | Some _ => [where_ ++ [dir_name root]]
               | None => []
               end
        /\ removed_of (log st) = removed_dirs (removal force_delete) where_ root
        /\ after = residue (removal force_delete) root
        /\ deleted_count st
           = length (removed_dirs (removal force_delete) where_ root))
  /\ (forall w n a o subs,
        can_list a = true ->
        postorder w (Dir n a o subs)
          = flat_map (postorder (w ++ [n])) subs ++ [w ++ [n]])
  /\ (can_list (dir_access root) = true ->
        last (postorder where_ root) [] = where_ ++ [dir_name root])
  /\ (forall rm n a subs,
        can_list a = true -> rm a = true ->
        forallb (collapses rm) subs = true ->
        collapses rm (Dir n a [] subs) = true)
  /\ (forall rm d, collapses rm d = true <-> residue rm d = None)
  /\ (forall rm d d' w, residue rm d = Some d' -> removed_dirs rm w d' = []).
Proof.
  split; [|split; [|split; [|split; [|split; [|split]]]]].
  - intros after st. unfold CleanEmptyDir.delete_empty_dirs_recursive.
    rewrite clean_empty_dir_body.
    destruct (@os_walk_live can_rmdir Removed (fun p => or_introl eq_refl)
                root where_ start) as (F & C & R & D).
    intros E. rewrite E in *. simpl in *. now subst.
  - intros force after st.
    unfold CleanEmptyDirDeepseek.delete_empty_recursive.
    assert (Ok : forall p, removal_event force p = Removed p
                           \/ removal_event force p = Trashed p)
      by (intros p; destruct force; [now left | now right]).
    destruct (@os_walk_live (removal force) (removal_event force) Ok
                root where_ start) as (F & C & R & D).
    assert (B : os_walk (CleanEmptyDirDeepseek.body force) where_ root start
                = os_walk (live_body (removal force) (removal_event force))
                    where_ root start).
    { clear. revert where_. generalize start as st. revert root.
      induction root as [n a o subs IH] using dir_induction. intros st w.
      rewrite !os_walk_eq. destruct (can_list a); [|reflexivity].
      assert (W : forall st0,
                walk_dirs (CleanEmptyDirDeepseek.body force) (w ++ [n]) subs st0
                = walk_dirs (live_body (removal force) (removal_event force))
                    (w ++ [n]) subs st0).
      { induction IH as [|c t Hc _ IHt]; intros st0; simpl; [reflexivity|].
        rewrite Hc.
        destruct (os_walk (live_body (removal force) (removal_event force))
                    (w ++ [n]) c st0) as [c' st1].
        now rewrite IHt. }
      rewrite W.
      destruct (walk_dirs (live_body (removal force) (removal_event force))
                  (w ++ [n]) subs st) as [rest st1].
      apply deepseek_body. }
    rewrite B.
    destruct (os_walk (live_body (removal force) (removal_event force))
                where_ root start) as [after0 st0].
    simpl in F, C, R, D. unfold CleanEmptyDirDeepseek.final_check.
    destruct after0 as [d'|].
    + pose proof (@residue_not_removable (removal force) root d'
                    (eq_sym F)) as NR.
      destruct (iterdir d') as [[|x l]|] eqn:I.
      * unfold CleanEmptyDirDeepseek.remove.
        specialize (NR eq_refl). unfold removal in NR.
        destruct force; rewrite NR; intros E; injection E as <- <-;
          simpl; rewrite checked_of_app, removed_of_app, C, R, D; simpl;
          rewrite ?app_nil_r; auto.
      * intros E; injection E as <- <-.
        simpl; rewrite checked_of_app, removed_of_app, C, R, D; simpl;
          rewrite ?app_nil_r; auto.
      * intros E; injection E as <- <-.
        simpl; rewrite checked_of_app, removed_of_app, C, R, D; simpl;
          rewrite ?app_nil_r; auto.
    + intros E; injection E as <- <-. rewrite C, R, D. simpl.
      rewrite ?app_nil_r; auto.
  - intros w n a o subs L. simpl. now rewrite L.
  - apply postorder_root_last.
  - intros rm n a subs L Rm All. simpl. now rewrite L, Rm, All.
  - intros rm d. split; apply residue_none.
  - intros rm d d' w H. now apply (residue_stable rm d H).
Qed.

Lemma C3_witness :
  exists after st,
    CleanEmptyDir.delete_empty_dirs_recursive [] Samples.chain false
      = (after, st)
    /\ after = None
    /\ removed_of (log st)
       = [[lit "a"; lit "b"; lit "c"]; [lit "a"; lit "b"]; [lit "a"]].
Proof.
  destruct (C3_cascade_bottom_up [] Samples.chain) as (clean & _).
  eexists. eexists. split; [reflexivity|].
  destruct (clean _ _ eq_refl) as (_ & R & A & _).
  split; [rewrite A | rewrite R]; reflexivity.
Defined.

(** The chain [a/b/c]: one pass of either script removes [c], then [b],
    then [a]. *)
Example chain_removed :
  CleanEmptyDir.delete_empty_dirs_recursive [] Samples.chain false
  = (None,
     {| deleted_count := 3; error_count := 0;
        log := [ Checked [lit "a"; lit "b"; lit "c"];
                 Removed [lit "a"; lit "b"; lit "c"];
                 Checked [lit "a"; lit "b"]; Removed [lit "a"; lit "b"];
                 Checked [lit "a"]; Removed [lit "a"] ] |})
  /\ fst (CleanEmptyDirDeepseek.delete_empty_recursive [] Samples.chain false)
     = None
  /\ removed_of
       (log (snd (CleanEmptyDirDeepseek.delete_empty_recursive []
                    Samples.chain false)))
     = [[lit "a"; lit "b"; lit "c"]; [lit "a"; lit "b"]; [lit "a"]].
Proof. repeat split. Qed.

(** A tree with a file: the empty branch goes, the rest stays. *)
Example mixed_pruned :
  fst (CleanEmptyDir.delete_empty_dirs_recursive [] Samples.mixed false)
  = Some (Dir (lit "a") Samples.all_access []
            [Dir (lit "b") Samples.all_access [lit "notes.txt"] []])
  /\ removed_of
       (log (snd (CleanEmptyDir.delete_empty_dirs_recursive []
                    Samples.mixed false)))
     = [[lit "a"; lit "c"; lit "e"]; [lit "a"; lit "c"]].
Proof. repeat split. Qed.

(** A dry run reports the empty leaf only: nothing is removed, so the
    directories above it are not empty. *)
Example chain_dry_run :
  CleanEmptyDir.delete_empty_dirs_recursive [] Samples.chain true
  = (Some Samples.chain,
     {| deleted_count := 1; error_count := 0;
        log := [ Checked [lit "a"; lit "b"; lit "c"];
                 WouldDelete [lit "a"; lit "b"; lit "c"];
                 Checked [lit "a"; lit "b"]; Checked [lit "a"] ] |}).
Proof. reflexivity. Qed.

End PruneFacts.

(** ** Runs that must not change anything *)

Module SafetyFacts.
Import PurePath DupFs DuplicatesRemove DupSpec DirTree PruneSpec.

(** [find_and_remove_duplicates] returns. *)
Lemma run_returns (fs : filesystem) (scan_error : option os_error)
  (stdin : option str) (directory : path) (dry_run : bool)
  (pattern : option Re.pattern) (auto_confirm dc recursive : bool) :
  compiled_ok pattern ->
  exists r,
    find_and_remove_duplicates fs scan_error stdin directory dry_run pattern
      auto_confirm dc recursive = Some r.
Proof.
  intros V. unfold find_and_remove_duplicates.
  destruct (negb (exists_ fs directory)); [eexists; reflexivity|].
  destruct (negb (is_dir fs directory)); [eexists; reflexivity|].
  destruct pattern as [p|]; [|eexists; reflexivity].
  destruct (gather fs scan_error directory recursive) as [[all_files|] log0];
    [|eexists; reflexivity].
  destruct (DuplicatesRemoveFacts.group_files_returns dc all_files [] V)
    as [fg ->].
  destruct (filter_groups fs fg) as [gwd log1].
  destruct (is_nil gwd); [eexists; reflexivity|].
  destruct (mark_groups fs gwd) as [ftr log2].
  destruct (is_nil ftr); [eexists; reflexivity|].
  destruct dry_run; [eexists; reflexivity|].
  destruct (if auto_confirm then _ else _) as [[]|ev]; eexists; reflexivity.
Qed.

(** C6.  A dry run changes nothing.  The duplicate remover returns with the
    filesystem it was given, without a call of [unlink]; the pruner of
    [clean_empty_dir.py] returns with the tree it was given, having removed
    and trashed nothing, also when run through its command line. *)
Theorem C6_dry_run_changes_nothing :
  (forall fs scan_error stdin directory pattern auto_confirm dc recursive,
     compiled_ok pattern ->
     exists r,
       find_and_remove_duplicates fs scan_error stdin directory true pattern
         auto_confirm dc recursive = Some r
       /\ r_fs r = fs /\ r_deleted_count r = 0
       /\ (forall ev, In ev (r_log r) -> unlink_event ev = false))
  /\ (forall where_ root after st,
        CleanEmptyDir.delete_empty_dirs_recursive where_ root true
          = (after, st) ->
        after = Some root /\ removed_of (log st) = [])
  /\ (forall where_ root yes answer,
        CleanEmptyDir.tree_after root
          (CleanEmptyDir.cli where_ root true yes answer) = Some root).
Proof.
  split; [|split].
  - intros fs scan_error stdin directory pattern ac dc rec V.
    destruct (@run_returns fs scan_error stdin directory true pattern ac dc
                rec V) as [r Run].
    exists r. split; [assumption|].
    destruct (DuplicatesRemoveFacts.no_deletion_unless_confirmed
                _ _ _ _ _ _ _ Run (or_introl eq_refl)) as (F & C & _ & L).
    now repeat split.
  - intros where_ root after st.
    unfold CleanEmptyDir.delete_empty_dirs_recursive. intros E.
    destruct (PruneFacts.dry_walk root where_ start) as [F R].
    rewrite E in F, R. simpl in F, R. now split.
  - intros where_ root yes answer. unfold CleanEmptyDir.cli.
    unfold CleanEmptyDir.delete_empty_dirs_recursive.
    pose proof (PruneFacts.dry_walk root where_ start) as [F _].
    destruct (os_walk (CleanEmptyDir.body true) where_ root start).
    exact F.
Qed.

Lemma C6_witness :
  exists r,
    find_and_remove_duplicates Samples.copies None None Samples.directory
      true (Some Re.default_pattern) true false false = Some r
    /\ r_fs r = Samples.copies.
Proof.
  destruct C6_dry_run_changes_nothing as (dup & _).
  destruct (dup Samples.copies None None Samples.directory
              (Some Re.default_pattern) true false false
              ReFacts.default_pattern_valid) as (r & Run & F & _).
  now exists r.
Defined.

(** C7.  A live run without auto-confirm deletes nothing unless the answer
    is an explicit yes.  The duplicate remover takes the line read, stripped
    and lower-cased, and goes on only if it is [yes]: an empty line, any
    other line and the end of input leave the filesystem as it was, with no
    call of [unlink].  The pruner asks with the default No and with
    [abort]: every answer but yes, the empty one and the end of input
    included, ends the program before the walk. *)
Theorem C7_decline_aborts :
  (forall fs scan_error stdin directory pattern dc recursive,
     compiled_ok pattern ->
     read_confirmation stdin <> Some (lit "yes") ->
     exists r,
       find_and_remove_duplicates fs scan_error stdin directory false pattern
         false dc recursive = Some r
       /\ r_fs r = fs /\ r_deleted_count r = 0
       /\ (forall ev, In ev (r_log r) -> unlink_event ev = false))
  /\ read_confirmation (Some []) <> Some (lit "yes")
  /\ read_confirmation None <> Some (lit "yes")
  /\ (forall where_ root answer,
        answer <> Click.ReplyYes ->
        CleanEmptyDir.cli where_ root false false answer
          = CleanEmptyDir.Aborted
        /\ CleanEmptyDir.tree_after root
             (CleanEmptyDir.cli where_ root false false answer) = Some root)
  /\ Click.confirm false true Click.ReplyEmpty = None
  /\ Click.confirm false true Click.ReplyEof = None.
Proof.
  split; [|split; [|split; [|split; [|split]]]];
    try discriminate; try reflexivity.
  - intros fs scan_error stdin directory pattern dc rec V No.
    destruct (@run_returns fs scan_error stdin directory false pattern false
                dc rec V) as [r Run].
    exists r. split; [assumption|].
    destruct (DuplicatesRemoveFacts.no_deletion_unless_confirmed
                _ _ _ _ _ _ _ Run (or_intror (conj eq_refl No)))
      as (F & C & _ & L).
    now repeat split.
  - intros where_ root answer N. unfold CleanEmptyDir.cli. simpl.
    destruct answer; try congruence; simpl; now split.
Qed.

Lemma C7_witness :
  exists r,
    find_and_remove_duplicates Samples.copies None (Some (lit "y"))
      Samples.directory false (Some Re.default_pattern) false false false
    = Some r
    /\ r_fs r = Samples.copies /\ r_deleted_count r = 0.
Proof.
  destruct C7_decline_aborts as (dup & _).
  destruct (dup Samples.copies None (Some (lit "y")) Samples.directory
              (Some Re.default_pattern) false false
              ReFacts.default_pattern_valid) as (r & Run & F & C & _).
  - vm_compute. discriminate.
  - now exists r.
Defined.

End SafetyFacts.

(** ** The literal sub-step beyond code points below 256 *)

Module WideFacts.
Import CleanFilename.

Section Agreement.

Variable lower_table : N -> N.

Lemma widen_is_space (c : ascii) :
  Wide.is_space (N.of_nat (code c)) = is_space c.
Proof. destruct c as [[] [] [] [] [] [] [] []]; reflexivity. Qed.

Lemma widen_lower_char (c : ascii) :
  Wide.lower_char lower_table (N.of_nat (code c))
  = [N.of_nat (code (lower_char c))].
Proof. destruct c as [[] [] [] [] [] [] [] []]; reflexivity. Qed.

Lemma widen_eqb (a b : ascii) :
  (N.of_nat (code a) =? N.of_nat (code b))%N
  = if ascii_dec a b then true else false.
Proof.
  destruct (ascii_dec a b) as [->|D].
  - apply N.eqb_refl.
  - apply N.eqb_neq. intros E. apply Nnat.Nat2N.inj in E. apply D.
    unfold code in E.
    rewrite <- (ascii_nat_embedding a), <- (ascii_nat_embedding b).
    now rewrite E.
Qed.

Lemma widen_lower (s : str) :
  Wide.lower lower_table (Wide.widen s) = Wide.widen (lower s).
Proof.
  induction s as [|c t IH]; [reflexivity|].
  change (Wide.lower lower_table (Wide.widen (c :: t)))
    with (Wide.lower_char lower_table (N.of_nat (code c))
          ++ Wide.lower lower_table (Wide.widen t)).
  rewrite widen_lower_char, IH. reflexivity.
Qed.

Lemma widen_lstrip (s : str) :
  Wide.lstrip (Wide.widen s) = Wide.widen (lstrip s).
Proof.
  induction s as [|c t IH]; [reflexivity|].
  simpl. rewrite widen_is_space. destruct (is_space c); [exact IH | reflexivity].
Qed.

Lemma widen_rstrip (s : str) :
  Wide.rstrip (Wide.widen s) = Wide.widen (rstrip s).
Proof.
  induction s as [|c t IH]; [reflexivity|].
  simpl. rewrite IH, widen_is_space.
  destruct (rstrip t) as [|d r]; simpl; [destruct (is_space c)|]; reflexivity.
Qed.

Lemma widen_strip (s : str) :
  Wide.strip (Wide.widen s) = Wide.widen (strip s).
Proof. unfold Wide.strip, strip. now rewrite widen_lstrip, widen_rstrip. Qed.

Lemma widen_startswith (p s : str) :
  Wide.startswith (Wide.widen p) (Wide.widen s) = startswith p s.
Proof.
  revert s. induction p as [|a p IH]; intros [|b s]; simpl; try reflexivity.
  rewrite widen_eqb. destruct (ascii_dec a b); [apply IH | reflexivity].
Qed.

Lemma widen_rfind (sub s : str) :
  Wide.rfind (Wide.widen sub) (Wide.widen s) = rfind sub s.
Proof.
  induction s as [|c t IH].
  - simpl. change (@nil N) with (Wide.widen []).
    now rewrite widen_startswith.
  - change (Wide.widen (c :: t))
      with (N.of_nat (code c) :: Wide.widen t).
    simpl Wide.rfind. rewrite IH.
    change (N.of_nat (code c) :: Wide.widen t) with (Wide.widen (c :: t)).
    rewrite widen_startswith. reflexivity.
Qed.

Lemma widen_slice_to (s : str) (i : Z) :
  Wide.slice_to (Wide.widen s) i = Wide.widen (slice_to s i).
Proof.
  unfold Wide.slice_to, slice_to, Wide.slice_index, slice_index, Wide.widen.
  rewrite length_map. apply firstn_map.
Qed.

(** On strings of code points below 256 the two embeddings of the
    sub-step agree. *)
Lemma remove_copy_widen (s : str) :
  Wide.remove_copy lower_table (Wide.widen s) = Wide.widen (remove_copy s).
Proof.
  unfold Wide.remove_copy, remove_copy.
  rewrite widen_lower, !widen_rfind.
  destruct (_ >? _)%Z.
  - now rewrite widen_slice_to, widen_strip.
  - destruct (negb _); [|reflexivity].
    now rewrite widen_slice_to, widen_strip.
Qed.

End Agreement.

(** C5.  The sub-step takes its cut index in the lower-cased stem and cuts
    the stem itself there.  In the stem [İ.copy] the marker [.copy] starts
    at index 1, so the claim has the stem cut to [İ].  Lower-casing turns
    U+0130 into two code points, the marker is found at index 2 of the
    lower-cased stem, and the code returns [İ.], with the dot of the
    marker left in.  On stems of code points below 256 this embedding is
    the one of [CleanFilename], for which the claim holds. *)
Theorem C5_cut_index_is_of_lowered_stem (lower_table : N -> N) :
  Wide.dotted_i_copy = [304%N] ++ Wide.widen (lit ".copy")
  /\ Wide.lower lower_table Wide.dotted_i_copy
     = [105%N; 775%N] ++ Wide.widen (lit ".copy")
  /\ Wide.rfind (Wide.widen (lit ".copy"))
       (Wide.lower lower_table Wide.dotted_i_copy) = 2%Z
  /\ Wide.rfind (Wide.widen (lit " - copy"))
       (Wide.lower lower_table Wide.dotted_i_copy) = (-1)%Z
  /\ Wide.remove_copy lower_table Wide.dotted_i_copy = [304%N; 46%N]
  /\ Wide.strip (firstn 1 Wide.dotted_i_copy) = [304%N]
  /\ Wide.remove_copy lower_table Wide.dotted_i_copy
     <> Wide.strip (firstn 1 Wide.dotted_i_copy)
  /\ (forall s : str,
        Wide.remove_copy lower_table (Wide.widen s)
        = Wide.widen (remove_copy s)).
Proof.
  repeat split; try reflexivity.
  - discriminate.
  - apply remove_copy_widen.
Qed.

End WideFacts.
